(** * TFE: a 1-D transfer-function editor (tfe/TFEditor.h)

    A shallow embedding of the header-only editor: the colour codec, the
    row-flipped image buffer, the piecewise-linear and tent opacity
    curves, the checkerboard background and the compositor.

    - [float] is IEEE-754 binary32, computed by the Standard Library's
      [SpecFloat] operations at precision 24 and maximal exponent 128.
    - [unsigned] and [uint32_t] values are integers in [0, 2^32),
      [size_t] values integers in [0, 2^64); the wrap-around is written
      out where the source can wrap.
    - [std::vector] is a list; [operator[]] is checked, an access past the
      end is the error [OutOfBounds] (the source leaves it undefined).
    - A conversion from [float] to [unsigned] whose truncated value does
      not fit is the error [UndefinedConversion] (undefined in C++). *)

From Stdlib Require Import ZArith Lia Bool List SpecFloat Sorted Permutation.
From stdpp Require Import base list.

#[local] Open Scope Z_scope.

(** ** Results of fallible code *)

Inductive error : Type :=
  | OutOfBounds
  | UndefinedConversion
  | DivisionByZero.

Inductive result (A : Type) : Type :=
  | Ok (a : A)
  | Err (e : error).

Arguments Ok {A} a.
Arguments Err {A} e.

Definition bind {A B : Type} (m : result A) (k : A -> result B) : result B :=
  match m with
  | Ok a => k a
  | Err e => Err e
  end.

Notation "x <- m ;; k" := (bind m (fun x => k))
  (at level 100, m at next level, k at level 200, right associativity).

Definition is_ok {A : Type} (m : result A) : bool :=
  match m with Ok _ => true | Err _ => false end.

(** [for (i = lo; i < hi; ++i) body], threading the loop state. *)
Fixpoint for_loop {S : Type} (n : nat) (i : Z)
    (body : Z -> S -> result S) (s : S) : result S :=
  match n with
  | O => Ok s
  | S n' => s' <- body i s ;; for_loop n' (i + 1) body s'
  end.

Definition for_range {S : Type} (lo hi : Z)
    (body : Z -> S -> result S) (s : S) : result S :=
  for_loop (Z.to_nat (hi - lo)) lo body s.

(** A loop over the elements of a vector, in index order. *)
Fixpoint for_each {A S : Type} (l : list A)
    (body : A -> S -> result S) (s : S) : result S :=
  match l with
  | [] => Ok s
  | a :: l' => s' <- body a s ;; for_each l' body s'
  end.

(** Pointwise combination of two vectors, failing when an element does. *)
Fixpoint zip_with_result {A B C : Type} (f : A -> B -> result C)
    (la : list A) (lb : list B) : result (list C) :=
  match la, lb with
  | a :: la', b :: lb' =>
      c <- f a b ;; cs <- zip_with_result f la' lb' ;; Ok (c :: cs)
  | _, _ => Ok []
  end.

(** ** Machine integers *)

Definition u32 (z : Z) : Z := z mod 2 ^ 32.
Definition u64 (z : Z) : Z := z mod 2 ^ 64.

(** ** binary32 floating point *)

Module F32.

Definition float : Type := spec_float.

Definition prec : Z := 24.
Definition emax : Z := 128.

Definition add : float -> float -> float := SFadd prec emax.
Definition sub : float -> float -> float := SFsub prec emax.
Definition mul : float -> float -> float := SFmul prec emax.
Definition div : float -> float -> float := SFdiv prec emax.

Definition opp : float -> float := SFopp.

Definition ltb : float -> float -> bool := SFltb.
Definition leb : float -> float -> bool := SFleb.
Definition eqb : float -> float -> bool := SFeqb.

Definition is_nan (f : float) : bool :=
  match f with S754_nan => true | _ => false end.

Definition valid (f : float) : bool := valid_binary prec emax f.

(** Conversion of an unsigned integer to [float] (round to nearest). *)
Definition of_Z (z : Z) : float := binary_normalize prec emax z 0 false.

(** A decimal literal [n/d] with small [n] and [d]: the nearest float. *)
Definition literal (n d : Z) : float := div (of_Z n) (of_Z d).

Definition nan : float := S754_nan.
Definition zero : float := Eval vm_compute in of_Z 0.
Definition one : float := Eval vm_compute in of_Z 1.
Definition two : float := Eval vm_compute in of_Z 2.
Definition half : float := Eval vm_compute in literal 1 2.

(** Truncation toward zero; no value for infinities and NaN. *)
Definition trunc (f : float) : option Z :=
  match f with
  | S754_zero _ => Some 0
  | S754_finite s m e =>
      let a := if 0 <=? e then Z.shiftl (Zpos m) e
               else Z.shiftr (Zpos m) (- e) in
      Some (if s then - a else a)
  | S754_infinity _ | S754_nan => None
  end.

(** [static_cast<unsigned>(f)] and the implicit conversion in
    [unsigned y = f]: defined only when the truncated value fits. *)
Definition to_unsigned (f : float) : result Z :=
  match trunc f with
  | Some z => if (0 <=? z) && (z <? 2 ^ 32) then Ok z
              else Err UndefinedConversion
  | None => Err UndefinedConversion
  end.

(** [fmaxf] of the C library: a NaN argument is ignored. *)
Definition fmaxf (a b : float) : float :=
  if is_nan a then b
  else if is_nan b then a
  else if ltb a b then b else a.

End F32.

Abbreviation float := F32.float.

(** ** Vector and interval types

    The header [math.h] of the repository is not among the sources; the
    types and operators that the editor takes from it follow the spec. *)

(** Modelled from the spec: the 2-component float vector of the missing
    [math.h]; a control point is an [(x, y)] pair. *)
Record vec2f : Type := mk_vec2f { v2x : float; v2y : float }.

(** Modelled from the spec: the 3-component float vector of the missing
    [math.h]. *)
Record vec3f : Type := mk_vec3f { v3x : float; v3y : float; v3z : float }.

(** Modelled from the spec: the 4-component float vector of the missing
    [math.h]; a colour with the channels R, G, B, A in [x], [y], [z], [w]. *)
Record vec4f : Type :=
  mk_vec4f { v4x : float; v4y : float; v4z : float; v4w : float }.

(** Modelled from the spec: the 1-D interval of the missing [math.h],
    with [lower] and [upper]. *)
Record box1f : Type := mk_box1f { lower : float; upper : float }.

(** Modelled from the spec: [operator+] of [vec4f] in the missing
    [math.h], per channel. *)
Definition vec4f_add (a b : vec4f) : vec4f :=
  mk_vec4f (F32.add (v4x a) (v4x b)) (F32.add (v4y a) (v4y b))
           (F32.add (v4z a) (v4z b)) (F32.add (v4w a) (v4w b)).

(** Modelled from the spec: [operator*] of a scalar and a [vec4f] in the
    missing [math.h], per channel. *)
Definition vec4f_scale (s : float) (b : vec4f) : vec4f :=
  mk_vec4f (F32.mul s (v4x b)) (F32.mul s (v4y b))
           (F32.mul s (v4z b)) (F32.mul s (v4w b)).

(** Modelled from the spec: [clamp] of the missing [math.h]; the spec says
    the packing "clamps input to [0,1]". *)
Definition clamp (x lo hi : float) : float :=
  if F32.ltb x lo then lo else if F32.ltb hi x then hi else x.

(** ** Colour codec *)

Definition cvt_uint32 (f : float) : result Z :=
  F32.to_unsigned (F32.mul (F32.of_Z 255) (clamp f F32.zero F32.one)).

(** The [vec4f] overload of [cvt_uint32]. *)
Definition cvt_uint32_rgba (v : vec4f) : result Z :=
  r <- cvt_uint32 (v4x v) ;;
  g <- cvt_uint32 (v4y v) ;;
  b <- cvt_uint32 (v4z v) ;;
  a <- cvt_uint32 (v4w v) ;;
  Ok (Z.lor (Z.lor (Z.lor (u32 (Z.shiftl r 0)) (u32 (Z.shiftl g 8)))
                   (u32 (Z.shiftl b 16))) (u32 (Z.shiftl a 24))).

Definition cvt_float32 (u : Z) : float :=
  F32.div (F32.of_Z u) (F32.of_Z 255).

Definition cvt_rgba32f (u : Z) : vec4f :=
  mk_vec4f (cvt_float32 (Z.land u 255))
           (cvt_float32 (Z.land (Z.shiftr u 8) 255))
           (cvt_float32 (Z.land (Z.shiftr u 16) 255))
           (cvt_float32 (Z.land (Z.shiftr u 24) 255)).

Definition over (A B : vec4f) : vec4f :=
  vec4f_add A (vec4f_scale (F32.sub F32.one (v4w A)) B).

(** ** Image buffer *)

Record Texture : Type := mk_Texture {
  width : Z;
  height : Z;
  data : list Z
}.

(** [Texture(w, h)]: [w * size_t(h)] zero pixels. *)
Definition Texture_new (w h : Z) : Texture :=
  mk_Texture w h (replicate (Z.to_nat (u64 (w * h))) 0).

(** The parameters [x] and [y] of [linearIndex], [flip], [set] and [get]
    have the type [unsigned]: they stand for integers in [0, 2^32). *)
Definition linearIndex (t : Texture) (x y : Z) : Z :=
  u64 (x + u64 (width t * y)).

Definition flip (t : Texture) (y : Z) : Z :=
  u32 (u32 (height t - y) - 1).

(** [data[i]] for a [size_t] index [i], checked against [data.size()]. *)
Definition in_bounds (d : list Z) (i : Z) : bool :=
  i <? Z.of_nat (length d).

Definition Texture_set (t : Texture) (x y val : Z) : result Texture :=
  let i := linearIndex t x (flip t y) in
  if in_bounds (data t) i
  then Ok (mk_Texture (width t) (height t) (<[Z.to_nat i := val]> (data t)))
  else Err OutOfBounds.

Definition Texture_get (t : Texture) (x y : Z) : result Z :=
  let i := linearIndex t x (flip t y) in
  if in_bounds (data t) i
  then match data t !! Z.to_nat i with
       | Some v => Ok v
       | None => Err OutOfBounds
       end
  else Err OutOfBounds.

(** ** Functions: opacity curves *)

(** The fill colour of a rasterized function, [vec4f(0.6f, 0.6f, 0.6f, 0.95f)]. *)
Definition fill_color : vec4f :=
  mk_vec4f (F32.literal 6 10) (F32.literal 6 10) (F32.literal 6 10)
           (F32.literal 95 100).

(** The position at which column [x] is sampled: [x/float(width-1)]. *)
Definition column_position (w x : Z) : float :=
  F32.div (F32.of_Z x) (F32.of_Z (u32 (w - 1))).

(** The row count of column [x]:
    [unsigned yval = eval(x/float(width-1)) * height]. *)
Definition column_rows (eval : float -> float) (w h x : Z) : result Z :=
  F32.to_unsigned (F32.mul (eval (column_position w x)) (F32.of_Z h)).

(** [Function::rasterize], for the [eval] of the dynamic type. *)
Definition Function_rasterize (eval : float -> float) (w h : Z)
    : result Texture :=
  for_range 0 w (fun x tex =>
    yval <- column_rows eval w h x ;;
    for_range 0 yval (fun y tex =>
      c <- cvt_uint32_rgba fill_color ;;
      Texture_set tex x y c) tex)
    (Texture_new w h).

Record PiecewiseLinear : Type := mk_PiecewiseLinear {
  pl_valueRange : box1f;
  controlPoints : list vec2f
}.

(** [std::sort] with the comparison [a.x < b.x], as an insertion sort:
    each point in turn is inserted into the sorted prefix, behind the
    points whose [x] is not greater.  The language does not fix the order
    of points with equal [x], and gives no meaning to the call when an
    [x] is NaN; the properties below rely only on the result being a
    permutation of the input in ascending order of [x]. *)
Fixpoint insert_by_x (p : vec2f) (l : list vec2f) : list vec2f :=
  match l with
  | [] => [p]
  | q :: l' => if F32.ltb (v2x p) (v2x q) then p :: q :: l'
               else q :: insert_by_x p l'
  end.

Definition sort_by_x (l : list vec2f) : list vec2f :=
  fold_left (fun sorted p => insert_by_x p sorted) l [].

Definition default_valueRange : box1f := mk_box1f F32.zero F32.one.

(** [PiecewiseLinear(const vec2f *CPs, unsigned numCPs)]. *)
Definition PiecewiseLinear_make (CPs : list vec2f) : PiecewiseLinear :=
  mk_PiecewiseLinear default_valueRange (sort_by_x CPs).

(** The body of the loop of [PiecewiseLinear::eval] over the pairs
    [controlPoints[i]], [controlPoints[i+1]]. *)
Fixpoint eval_segments (cps : list vec2f) (x : float) : float :=
  match cps with
  | p1 :: ((p2 :: _) as rest) =>
      if F32.ltb x (v2x p1) || F32.ltb (v2x p2) x
      then eval_segments rest x
      else
        let m := F32.div (F32.sub (v2y p2) (v2y p1))
                         (F32.sub (v2x p2) (v2x p1)) in
        let xf := F32.sub x (v2x p1) in
        F32.add (v2y p1) (F32.mul m xf)
  | _ => F32.zero
  end.

Definition PiecewiseLinear_eval (pl : PiecewiseLinear) (x : float) : float :=
  if (length (controlPoints pl) <? 2)%nat
     || F32.ltb x (lower (pl_valueRange pl))
     || F32.ltb (upper (pl_valueRange pl)) x
  then F32.zero
  else eval_segments (controlPoints pl) x.

Record Tent : Type := mk_Tent {
  tent_valueRange : box1f;
  tipPos : vec2f;
  topWidth : float;
  bottomWidth : float;
  internal : PiecewiseLinear
}.

(** The four control points that [Tent::initInternal] writes. *)
Definition Tent_CPs (tip : vec2f) (tw bw : float) : list vec2f :=
  [ mk_vec2f (F32.sub (v2x tip) (F32.div bw F32.two)) F32.zero;
    mk_vec2f (F32.sub (v2x tip) (F32.div tw F32.two)) (v2y tip);
    mk_vec2f (F32.add (v2x tip) (F32.div tw F32.two)) (v2y tip);
    mk_vec2f (F32.add (v2x tip) (F32.div bw F32.two)) F32.zero ].

(** [Tent(tip, tw, bw)]: the members, then [initInternal]. *)
Definition Tent_make (tip : vec2f) (tw bw : float) : Tent :=
  let vr := default_valueRange in
  mk_Tent vr tip tw bw
    (mk_PiecewiseLinear vr
       (controlPoints (PiecewiseLinear_make (Tent_CPs tip tw bw)))).

(** [Tent()]. *)
Definition Tent_default : Tent :=
  Tent_make (mk_vec2f F32.half F32.one) F32.zero F32.one.

Definition Tent_eval (t : Tent) (x : float) : float :=
  PiecewiseLinear_eval (internal t) x.

(** The concrete subclasses of [Function]; [Box], [Gaussian] and
    [ColorMap] have no [eval] and cannot be instantiated. *)
Inductive Function : Type :=
  | FPiecewiseLinear (pl : PiecewiseLinear)
  | FTent (t : Tent).

Definition Function_eval (f : Function) (x : float) : float :=
  match f with
  | FPiecewiseLinear pl => PiecewiseLinear_eval pl x
  | FTent t => Tent_eval t x
  end.

(** ** Checkerboard background *)

Record Checkers : Type := mk_Checkers {
  checkerSize : Z;
  color1 : vec3f;
  color2 : vec3f
}.

Definition Checkers_rasterize (c : Checkers) (w h : Z) : result Texture :=
  let colors0 := mk_vec4f (v3x (color1 c)) (v3y (color1 c)) (v3z (color1 c))
                          F32.one in
  let colors1 := mk_vec4f (v3x (color2 c)) (v3y (color2 c)) (v3z (color2 c))
                          F32.one in
  for_range 0 h (fun y tex =>
    for_range 0 w (fun x tex =>
      if checkerSize c =? 0 then Err DivisionByZero
      else
        let xx := x / checkerSize c in
        let yy := y / checkerSize c in
        let col := if xx mod 2 =? yy mod 2 then colors0 else colors1 in
        v <- cvt_uint32_rgba col ;;
        Texture_set tex x y v) tex)
    (Texture_new w h).

(** ** Layers *)

Inductive Layer : Type :=
  | LFunction (f : Function)
  | LCheckers (c : Checkers).

Definition Layer_rasterize (l : Layer) (w h : Z) : result Texture :=
  match l with
  | LFunction f => Function_rasterize (Function_eval f) w h
  | LCheckers c => Checkers_rasterize c w h
  end.

(** ** The editor *)

(** A non-null [Function::SP]: the address it holds and the object there. *)
Record FunctionSP : Type := mk_FunctionSP {
  sp_addr : nat;
  sp_obj : Function
}.

Record TFEditor : Type := mk_TFEditor {
  background : option Layer;
  functions : list FunctionSP;
  showOutline : bool
}.

(** The default-constructed editor. *)
Definition TFEditor_new : TFEditor := mk_TFEditor None [] true.

Definition addFunction (func : FunctionSP) (ed : TFEditor) : TFEditor :=
  mk_TFEditor (background ed) (functions ed ++ [func]) (showOutline ed).

Definition setBackground (bg : Layer) (ed : TFEditor) : TFEditor :=
  mk_TFEditor (Some bg) (functions ed) (showOutline ed).

(** The body of [moveToTop] is the comment [// TODO...!]. *)
Definition moveToTop (func : FunctionSP) (ed : TFEditor) : TFEditor := ed.

(** The loop of [select]: [n] is [i + 1] for the index [i] it looks at. *)
Fixpoint select_from (fs : list FunctionSP) (pos : vec2f) (n : nat)
    : option FunctionSP :=
  match n with
  | O => None
  | S i =>
      match fs !! i with
      | Some f =>
          let y := Function_eval (sp_obj f) (v2x pos) in
          if F32.ltb (v2y pos) y then Some f else select_from fs pos i
      | None => None
      end
  end.

Definition select (ed : TFEditor) (pos : vec2f) : option FunctionSP :=
  select_from (functions ed) pos (length (functions ed)).

Definition TFEditor_eval (ed : TFEditor) (x : float) : float :=
  fold_left (fun res f => F32.fmaxf res (Function_eval (sp_obj f) x))
            (functions ed) F32.zero.

(** One pixel of [layerOver]: the pixel [b] of [B] is [src], the pixel [a]
    of [A] is [dst]. *)
Definition blend_pixel (b a : Z) : result Z :=
  let dst := cvt_rgba32f a in
  let src := cvt_rgba32f b in
  cvt_uint32_rgba (over src dst).

Definition layerOver (A B : Texture) : result Texture :=
  for_range 0 (height A) (fun y B =>
    for_range 0 (width A) (fun x B =>
      a <- Texture_get A (u32 x) (u32 y) ;;
      b <- Texture_get B (u32 x) (u32 y) ;;
      v <- blend_pixel b a ;;
      Texture_set B (u32 x) (u32 y) v) B) B.

(** The colour of the outline, [vec4f(1.f, 0.5f, 0.f, 1.f)]. *)
Definition outline_color : vec4f :=
  mk_vec4f F32.one F32.half F32.zero F32.one.

(** The first two blocks of [TFEditor::rasterize]: functions, background. *)
Definition TFEditor_composite (ed : TFEditor) (w h : Z) : result Texture :=
  tex <- for_each (functions ed) (fun f tex =>
           layer <- Function_rasterize (Function_eval (sp_obj f)) w h ;;
           layerOver layer tex) (Texture_new w h) ;;
  match background ed with
  | Some bg => A <- Layer_rasterize bg w h ;; layerOver A tex
  | None => Ok tex
  end.

(** The last block of [TFEditor::rasterize]: the outline. *)
Definition TFEditor_outline (ed : TFEditor) (w h : Z) (tex : Texture)
    : result Texture :=
  if showOutline ed then
    for_range 0 w (fun x tex =>
      let xf := column_position w x in
      let yf := TFEditor_eval ed xf in
      if F32.ltb F32.zero yf then
        y <- F32.to_unsigned (F32.mul yf (F32.of_Z h)) ;;
        c <- cvt_uint32_rgba outline_color ;;
        Texture_set tex x y c
      else Ok tex) tex
  else Ok tex.

Definition TFEditor_rasterize (ed : TFEditor) (w h : Z) : result Texture :=
  tex <- TFEditor_composite ed w h ;;
  TFEditor_outline ed w h tex.

(** ** The bundled example (examples/simple/main.cpp) *)

Definition example_checkers : Checkers :=
  mk_Checkers 16 (mk_vec3f F32.zero F32.zero F32.zero)
                 (mk_vec3f F32.one F32.one F32.one).

Definition example_pl : PiecewiseLinear :=
  PiecewiseLinear_make
    [ mk_vec2f F32.zero F32.one;
      mk_vec2f (F32.literal 3 10) (F32.literal 8 10);
      mk_vec2f F32.one F32.one ].

Definition example_editor : TFEditor :=
  addFunction (mk_FunctionSP 2 (FTent Tent_default))
    (addFunction (mk_FunctionSP 1 (FPiecewiseLinear example_pl))
       (setBackground (LCheckers example_checkers) TFEditor_new)).

(** ** Well-formed images *)

(** The dimensions of [t] are [w] and [h], and it holds [w * h] pixels. *)
Definition wf_texture (t : Texture) (w h : Z) : Prop :=
  width t = w /\ height t = h /\ Z.of_nat (length (data t)) = w * h.

(** Where the pixel [(x, y)] lives in the row-flipped storage. *)
Definition storage_index (w h x y : Z) : Z := x + w * (h - 1 - y).

Definition is_unsigned (z : Z) : Prop := 0 <= z < 2 ^ 32.

(** The packed fill and outline colours. *)
Definition fill_pixel : Z := 4070152601.
Definition outline_pixel : Z := 4278222847.

(** ** Statements about [Function::rasterize] *)

(** Every column's row count is defined and does not exceed the height. *)
Definition rows_fit (eval : float -> float) (w h : Z) : Prop :=
  forall x, 0 <= x < w -> exists n, column_rows eval w h x = Ok n /\ n <= h.

(** [Function::rasterize] yields an image of the requested size in which
    column [x] has its rows below the row count filled with the fill
    colour and every other pixel zero; a column whose function value is
    not positive has the row count 0. *)
Definition rasterize_fills (eval : float -> float) (w h : Z) : Prop :=
  exists tex,
    Function_rasterize eval w h = Ok tex /\ wf_texture tex w h /\
    forall x y, 0 <= x < w -> 0 <= y < h ->
      exists n, column_rows eval w h x = Ok n /\
        Texture_get tex x y = Ok (if y <? n then fill_pixel else 0) /\
        (F32.leb (eval (column_position w x)) F32.zero = true -> n = 0).

(** The image of [Function::rasterize] after the columns before [x] and
    [y] rows of column [x]. *)
Definition filled_upto (eval : float -> float) (w h x y : Z)
    (tex : Texture) : Prop :=
  wf_texture tex w h /\
  forall x' y' n', 0 <= x' < w -> 0 <= y' < h ->
    column_rows eval w h x' = Ok n' ->
    Texture_get tex x' y'
    = Ok (if ((x' <? x) && (y' <? n')) || ((x' =? x) && (y' <? y))
          then fill_pixel else 0).

(** A curve that leaves the documented range of alpha: constant 2. *)
Definition tall_curve : PiecewiseLinear :=
  PiecewiseLinear_make
    [ mk_vec2f F32.zero F32.two; mk_vec2f F32.one F32.two ].

(** ** The compositing pipeline as the specification words it *)

(** Step 1: the fully-zero (transparent black) image. *)
Definition zero_image (w h : Z) : Texture :=
  mk_Texture w h (replicate (Z.to_nat (w * h)) 0).

(** The operator [over] as the specification gives it:
    [result = src + (1 - src.alpha) * dst], per channel including alpha. *)
Definition over_spec (src dst : vec4f) : vec4f :=
  let k := F32.sub F32.one (v4w src) in
  mk_vec4f (F32.add (v4x src) (F32.mul k (v4x dst)))
           (F32.add (v4y src) (F32.mul k (v4y dst)))
           (F32.add (v4z src) (F32.mul k (v4z dst)))
           (F32.add (v4w src) (F32.mul k (v4w dst))).

(** [over(accumulator_pixel, temp_pixel)] on packed pixels: both are
    unpacked, the accumulator's colour is the [src] operand and the
    temporary image's colour the [dst] operand, and the result is packed. *)
Definition over_pixels (accumulator_pixel temp_pixel : Z) : result Z :=
  cvt_uint32_rgba
    (over_spec (cvt_rgba32f accumulator_pixel) (cvt_rgba32f temp_pixel)).

(** Every pixel of [top] is replaced by [over (top pixel, bottom pixel)]. *)
Definition composite_over (top bottom : Texture) : result Texture :=
  d <- zip_with_result over_pixels (data top) (data bottom) ;;
  Ok (mk_Texture (width top) (height top) d).

(** Step 2 for one function: it is rasterized to a temporary image, which
    is blended under the accumulator. *)
Definition blend_under (w h : Z) (acc : result Texture) (f : FunctionSP)
    : result Texture :=
  a <- acc ;;
  temp <- Layer_rasterize (LFunction (sp_obj f)) w h ;;
  composite_over a temp.

(** Steps 2 and 3: the functions are taken in list order, starting from
    the zero image; then the accumulated result is blended over the
    background, if one is set. *)
Definition composite_spec (ed : TFEditor) (w h : Z) : result Texture :=
  acc <- fold_left (blend_under w h) (functions ed) (Ok (zero_image w h)) ;;
  match background ed with
  | Some bg => b <- Layer_rasterize bg w h ;; composite_over acc b
  | None => Ok acc
  end.

(** The outline (step 4) is drawn on the composited image. *)
Definition rasterize_spec (ed : TFEditor) (w h : Z) : result Texture :=
  acc <- composite_spec ed w h ;;
  TFEditor_outline ed w h acc.

(** A curve of constant value 1/2, and an editor that holds it and a
    default tent over a checkerboard of cell size 1. *)
Definition low_curve : PiecewiseLinear :=
  PiecewiseLinear_make
    [ mk_vec2f F32.zero F32.half; mk_vec2f F32.one F32.half ].

Definition layered_editor : TFEditor :=
  addFunction (mk_FunctionSP 2 (FTent Tent_default))
    (addFunction (mk_FunctionSP 1 (FPiecewiseLinear low_curve))
       (setBackground
          (LCheckers (mk_Checkers 1 (mk_vec3f F32.zero F32.zero F32.zero)
                                    (mk_vec3f F32.one F32.one F32.one)))
          TFEditor_new)).

(** The state of [layerOver] when the rows before [y] and the first [x]
    pixels of row [y] are blended: [la] and [lb] are the pixels of [A] and
    of [B] at the start. *)
Definition blended_upto (la lb : list Z) (w h y x : Z) (B : Texture) : Prop :=
  wf_texture B w h /\
  forall i : nat, Z.of_nat i < w * h ->
    (w * (h - y) <= Z.of_nat i
     \/ w * (h - 1 - y) <= Z.of_nat i < w * (h - 1 - y) + x ->
     exists a b v, la !! i = Some a /\ lb !! i = Some b /\
                   blend_pixel b a = Ok v /\ data B !! i = Some v) /\
    (Z.of_nat i < w * (h - 1 - y)
     \/ w * (h - 1 - y) + x <= Z.of_nat i < w * (h - y) ->
     data B !! i = lb !! i).

(** Some pixel pair cannot be blended. *)
Definition blend_undefined (la lb : list Z) : Prop :=
  exists (i : nat) a b, la !! i = Some a /\ lb !! i = Some b /\
                        blend_pixel b a = Err UndefinedConversion.

(** ** Statements about the envelope and the outline *)

(** The outline pixel of column [x] is at row [y]. *)
Definition plotted (ed : TFEditor) (w h x y : Z) : bool :=
  let yf := TFEditor_eval ed (column_position w x) in
  F32.ltb F32.zero yf
  && match F32.to_unsigned (F32.mul yf (F32.of_Z h)) with
     | Ok r => y =? r
     | Err _ => false
     end.

(** Every outline pixel has a defined row inside the image. *)
Definition outline_fits (ed : TFEditor) (w h : Z) : Prop :=
  forall x, 0 <= x < w ->
    let yf := TFEditor_eval ed (column_position w x) in
    F32.ltb F32.zero yf = true ->
    exists y, F32.to_unsigned (F32.mul yf (F32.of_Z h)) = Ok y /\ y < h.

(** The outline loop after the columns before [x], started on [tex0]. *)
Definition outlined_upto (ed : TFEditor) (w h : Z) (tex0 : Texture)
    (x : Z) (tex : Texture) : Prop :=
  wf_texture tex w h /\
  forall x' y', 0 <= x' < w -> 0 <= y' < h ->
    Texture_get tex x' y'
    = if (x' <? x) && plotted ed w h x' y' then Ok outline_pixel
      else Texture_get tex0 x' y'.

(** [rasterize] returns the composited image with exactly the outline
    pixels replaced by the outline colour. *)
Definition outline_plots (ed : TFEditor) (w h : Z) : Prop :=
  forall tex, TFEditor_composite ed w h = Ok tex ->
    exists tex',
      TFEditor_rasterize ed w h = Ok tex' /\ wf_texture tex' w h /\
      forall x y, 0 <= x < w -> 0 <= y < h ->
        Texture_get tex' x y
        = if plotted ed w h x y then Ok outline_pixel
          else Texture_get tex x y.

(** [eval] is the greatest of the values of the registered functions,
    0 without functions. *)
Definition envelope_is_max (ed : TFEditor) (x : float) : Prop :=
  let r := TFEditor_eval ed x in
  (functions ed = [] -> r = F32.zero) /\
  (functions ed <> [] ->
   (exists f, In f (functions ed) /\ r = Function_eval (sp_obj f) x) /\
   forall f, In f (functions ed) ->
     F32.ltb r (Function_eval (sp_obj f) x) = false).

(** [eval] is the greatest of 0 and the values of the registered
    functions: it is one of them and a number, and neither 0 nor a
    function's value is greater. *)
Definition envelope_is_max_with_zero (ed : TFEditor) (x : float) : Prop :=
  let r := TFEditor_eval ed x in
  (r = F32.zero
   \/ exists f, In f (functions ed) /\ r = Function_eval (sp_obj f) x) /\
  F32.is_nan r = false /\
  F32.ltb r F32.zero = false /\
  (forall f, In f (functions ed) ->
     F32.ltb r (Function_eval (sp_obj f) x) = false) /\
  (functions ed = [] -> r = F32.zero).

(** A curve of constant value -1, and an editor that holds only it. *)
Definition negative_curve : PiecewiseLinear :=
  PiecewiseLinear_make
    [ mk_vec2f F32.zero (F32.opp F32.one);
      mk_vec2f F32.one (F32.opp F32.one) ].

Definition negative_editor : TFEditor :=
  addFunction (mk_FunctionSP 1 (FPiecewiseLinear negative_curve)) TFEditor_new.

(** An editor that holds only a default tent. *)
Definition tent_editor : TFEditor :=
  addFunction (mk_FunctionSP 1 (FTent Tent_default)) TFEditor_new.

(** ** [PiecewiseLinear::eval] as the specification words it *)

Definition in_valueRange (b : box1f) (x : float) : bool :=
  F32.leb (lower b) x && F32.leb x (upper b).

(** The pair [(p1, p2)] covers [x]: [p1.x <= x <= p2.x]. *)
Definition covers (x : float) (pair : vec2f * vec2f) : bool :=
  F32.leb (v2x (fst pair)) x && F32.leb x (v2x (snd pair)).

(** [p1.y + (p2.y - p1.y) / (p2.x - p1.x) * (x - p1.x)]. *)
Definition interpolate (p1 p2 : vec2f) (x : float) : float :=
  F32.add (v2y p1)
    (F32.mul (F32.div (F32.sub (v2y p2) (v2y p1)) (F32.sub (v2x p2) (v2x p1)))
             (F32.sub x (v2x p1))).

Definition consecutive_pairs (cps : list vec2f) : list (vec2f * vec2f) :=
  combine cps (tl cps).

Definition eval_spec (pl : PiecewiseLinear) (x : float) : float :=
  if (length (controlPoints pl) <? 2)%nat
     || negb (in_valueRange (pl_valueRange pl) x)
  then F32.zero
  else match List.find (covers x) (consecutive_pairs (controlPoints pl)) with
       | Some (p1, p2) => interpolate p1 p2 x
       | None => F32.zero
       end.

(** The bounds of the range and the [x] of every control point are
    numbers. *)
Definition numeric_curve (pl : PiecewiseLinear) : Prop :=
  F32.is_nan (lower (pl_valueRange pl)) = false
  /\ F32.is_nan (upper (pl_valueRange pl)) = false
  /\ Forall (fun p => F32.is_nan (v2x p) = false) (controlPoints pl).

(** No control point has a smaller [x] than the one before it. *)
Definition ascending_x (cps : list vec2f) : Prop :=
  Sorted (fun p q => F32.ltb (v2x q) (v2x p) = false) cps.

(** Two curves that hold a NaN: as the lower bound of the range, and as
    the [x] of the first control point. *)
Definition nan_range_curve : PiecewiseLinear :=
  mk_PiecewiseLinear (mk_box1f F32.nan F32.one)
    [ mk_vec2f F32.zero F32.one; mk_vec2f F32.one F32.one ].

Definition nan_point_curve : PiecewiseLinear :=
  mk_PiecewiseLinear default_valueRange
    [ mk_vec2f F32.nan F32.one; mk_vec2f F32.one F32.one ].

(** ** [over] on whole colours *)

(** [==] on every channel. *)
Definition vec4f_eqb (a b : vec4f) : bool :=
  F32.eqb (v4x a) (v4x b) && F32.eqb (v4y a) (v4y b)
  && F32.eqb (v4z a) (v4z b) && F32.eqb (v4w a) (v4w b).

(** Every channel is a binary32 value. *)
Definition vec4f_valid (a : vec4f) : Prop :=
  F32.valid (v4x a) = true /\ F32.valid (v4y a) = true
  /\ F32.valid (v4z a) = true /\ F32.valid (v4w a) = true.

(** Every channel is a number. *)
Definition vec4f_numeric (a : vec4f) : Prop :=
  F32.is_nan (v4x a) = false /\ F32.is_nan (v4y a) = false
  /\ F32.is_nan (v4z a) = false /\ F32.is_nan (v4w a) = false.

(** ** Hit-testing and stacking order *)

(** The filled area of [f] contains [pos]: [pos.y < f->eval(pos.x)]. *)
Definition contains (pos : vec2f) (f : FunctionSP) : bool :=
  F32.ltb (v2y pos) (Function_eval (sp_obj f) (v2x pos)).

(** Two handles hold the same address. *)
Definition same_handle (a b : FunctionSP) : bool :=
  Nat.eqb (sp_addr a) (sp_addr b).

(** [moveToTop] as the specification and the comment above it word it:
    a function that is present is moved to the end of the list. *)
Definition moveToTop_spec (func : FunctionSP) (ed : TFEditor) : TFEditor :=
  if existsb (same_handle func) (functions ed)
  then mk_TFEditor (background ed)
         (List.filter (fun g => negb (same_handle func g)) (functions ed)
          ++ [func])
         (showOutline ed)
  else ed.

(** Two default tents at different addresses, added in this order. *)
Definition tent_a : FunctionSP := mk_FunctionSP 1 (FTent Tent_default).
Definition tent_b : FunctionSP := mk_FunctionSP 2 (FTent Tent_default).

Definition two_tents : TFEditor :=
  addFunction tent_b (addFunction tent_a TFEditor_new).

(** ** Further statements about images and pixels *)

(** Every stored pixel is a [uint32_t] value. *)
Definition pixels_unsigned (t : Texture) : Prop :=
  Forall is_unsigned (data t).

(** The alpha byte of a packed pixel. *)
Definition alpha_byte (u : Z) : Z := Z.land (Z.shiftr u 24) 255.

(** Every stored pixel is a [uint32_t] value with alpha 255. *)
Definition pixels_opaque (t : Texture) : Prop :=
  Forall (fun u => is_unsigned u /\ alpha_byte u = 255) (data t).

(** The image has the given size and holds [uint32_t] pixels. *)
Definition image_ok (t : Texture) (w h : Z) : Prop :=
  wf_texture t w h /\ pixels_unsigned t.


(** ** Statements about the checkerboard *)

(** The two colours of the checkerboard, with alpha 1. *)
Definition checker_color1 (c : Checkers) : vec4f :=
  mk_vec4f (v3x (color1 c)) (v3y (color1 c)) (v3z (color1 c)) F32.one.

Definition checker_color2 (c : Checkers) : vec4f :=
  mk_vec4f (v3x (color2 c)) (v3y (color2 c)) (v3z (color2 c)) F32.one.

(** The pixel of cell [(x / cs, y / cs)]: [c0] when the parities of the
    two cell indices agree, [c1] otherwise. *)
Definition checker_pixel (c : Checkers) (c0 c1 x y : Z) : Z :=
  if (x / checkerSize c) mod 2 =? (y / checkerSize c) mod 2 then c0 else c1.

(** The image of [Checkers::rasterize] after the rows before [y] and the
    first [x] pixels of row [y]. *)
Definition checkered_upto (c : Checkers) (w h c0 c1 y x : Z)
    (tex : Texture) : Prop :=
  wf_texture tex w h /\
  forall x' y', 0 <= x' < w -> 0 <= y' < h ->
    Texture_get tex x' y'
    = Ok (if (y' <? y) || ((y' =? y) && (x' <? x))
          then checker_pixel c c0 c1 x' y' else 0).

(** ** Further statements about curves and colours *)

(** A curve whose control points lie inside its range. *)
Definition inner_curve : PiecewiseLinear :=
  PiecewiseLinear_make
    [ mk_vec2f (F32.literal 3 10) F32.one;
      mk_vec2f (F32.literal 8 10) F32.one ].

(** The float is a zero or a finite number. *)
Definition float_finite (f : float) : bool :=
  match f with
  | S754_zero _ | S754_finite _ _ _ => true
  | S754_infinity _ | S754_nan => false
  end.

(** Every channel is a zero or a finite number. *)
Definition vec4f_finite (a : vec4f) : Prop :=
  float_finite (v4x a) = true /\ float_finite (v4y a) = true
  /\ float_finite (v4z a) = true /\ float_finite (v4w a) = true.

(** ** The OpenGL adapter: what decides whether it renders again *)

(** The members of [TFEditorOpenGL] that [setupTexture] tests and
    writes, with the editor it extends; the names of the OpenGL objects
    are left out. *)
Record TFEditorOpenGL : Type := mk_TFEditorOpenGL {
  gl_base : TFEditor;
  updated : bool;
  prevWidth : Z;
  prevHeight : Z
}.

(** [bool updated{true}; unsigned prevWidth = 0, prevHeight = 0]. *)
Definition TFEditorOpenGL_new : TFEditorOpenGL :=
  mk_TFEditorOpenGL TFEditor_new true 0 0.

Definition TFEditorOpenGL_addFunction (func : FunctionSP)
    (st : TFEditorOpenGL) : TFEditorOpenGL :=
  mk_TFEditorOpenGL (addFunction func (gl_base st)) true
    (prevWidth st) (prevHeight st).

Definition TFEditorOpenGL_setBackground (bg : Layer)
    (st : TFEditorOpenGL) : TFEditorOpenGL :=
  mk_TFEditorOpenGL (setBackground bg (gl_base st)) true
    (prevWidth st) (prevHeight st).

Definition TFEditorOpenGL_moveToTop (func : FunctionSP)
    (st : TFEditorOpenGL) : TFEditorOpenGL :=
  mk_TFEditorOpenGL (moveToTop func (gl_base st)) true
    (prevWidth st) (prevHeight st).

(** [setupTexture(width, height)]: the members afterwards, and the size
    at which [setupTFETexture] has the editor rasterized, if it is
    called.  [framebuffer_complete] is the answer of
    [glCheckFramebufferStatus]; the other OpenGL calls do not touch the
    members. *)
Definition setupTexture (st : TFEditorOpenGL) (w h : Z)
    (framebuffer_complete : bool) : TFEditorOpenGL * option (Z * Z) :=
  if negb (updated st) && (w =? prevWidth st) && (h =? prevHeight st)
  then (st, None)
  else if negb framebuffer_complete then (st, None)
  else
    let margin := 8 in
    let resX := u32 (w - u32 (2 * margin)) in
    let resY := u32 (h - u32 (2 * margin)) in
    (mk_TFEditorOpenGL (gl_base st) (updated st) w h, Some (resX, resY)).

(** The calls a user of the adapter can make. *)
Inductive adapter_call : Type :=
  | CallAddFunction (func : FunctionSP)
  | CallSetBackground (bg : Layer)
  | CallMoveToTop (func : FunctionSP)
  | CallSetupTexture (w h : Z) (framebuffer_complete : bool).

Definition adapter_step (st : TFEditorOpenGL) (call : adapter_call)
    : TFEditorOpenGL :=
  match call with
  | CallAddFunction func => TFEditorOpenGL_addFunction func st
  | CallSetBackground bg => TFEditorOpenGL_setBackground bg st
  | CallMoveToTop func => TFEditorOpenGL_moveToTop func st
  | CallSetupTexture w h complete => fst (setupTexture st w h complete)
  end.

Definition adapter_run (calls : list adapter_call) : TFEditorOpenGL :=
  fold_left adapter_step calls TFEditorOpenGL_new.


(** * Properties *)

(** ** Loops *)

Section Loops.
Context {St : Type}.
Variable body : Z -> St -> result St.

Lemma for_range_empty (lo hi : Z) (s : St) :
  hi <= lo -> for_range lo hi body s = Ok s.
Proof.
  intros Hle. unfold for_range.
  replace (Z.to_nat (hi - lo)) with O by lia. reflexivity.
Qed.

Lemma for_range_step (lo hi : Z) (s : St) :
  lo < hi ->
  for_range lo hi body s = (s' <- body lo s ;; for_range (lo + 1) hi body s').
Proof.
  intros Hlt. unfold for_range.
  replace (Z.to_nat (hi - lo)) with (S (Z.to_nat (hi - (lo + 1)))) by lia.
  reflexivity.
Qed.

(** An invariant [P] carried through the loop; an iteration may instead
    stop with the error [e], and then [Q] holds. *)
Lemma for_loop_invariant (P : Z -> St -> Prop) (e : error) (Q : Prop)
    (n : nat) :
  forall (i : Z) (s : St),
    P i s ->
    (forall j t, i <= j < i + Z.of_nat n -> P j t ->
       (exists t', body j t = Ok t' /\ P (j + 1) t')
       \/ (body j t = Err e /\ Q)) ->
    (exists t, for_loop n i body s = Ok t /\ P (i + Z.of_nat n) t)
    \/ (for_loop n i body s = Err e /\ Q).
Proof.
  induction n as [|n IH]; intros i s HP Hstep.
  - left. exists s. split; [reflexivity|].
    replace (i + Z.of_nat 0) with i by lia. exact HP.
  - cbn [for_loop].
    destruct (Hstep i s ltac:(lia) HP) as [(t' & Hb & HP') | [Hb HQ]].
    + rewrite Hb. cbn [bind].
      replace (i + Z.of_nat (S n)) with ((i + 1) + Z.of_nat n) by lia.
      apply IH; [exact HP'|].
      intros j t Hj. apply Hstep. lia.
    + right. rewrite Hb. split; [reflexivity | exact HQ].
Qed.

Lemma for_range_invariant (P : Z -> St -> Prop) (e : error) (Q : Prop)
    (lo hi : Z) (s : St) :
  lo <= hi ->
  P lo s ->
  (forall j t, lo <= j < hi -> P j t ->
     (exists t', body j t = Ok t' /\ P (j + 1) t')
     \/ (body j t = Err e /\ Q)) ->
  (exists t, for_range lo hi body s = Ok t /\ P hi t)
  \/ (for_range lo hi body s = Err e /\ Q).
Proof.
  intros Hle HP Hstep. unfold for_range.
  pose proof (for_loop_invariant P e Q (Z.to_nat (hi - lo)) lo s HP) as H.
  replace (lo + Z.of_nat (Z.to_nat (hi - lo))) with hi in H by lia.
  apply H. intros j t Hj. apply Hstep. lia.
Qed.

(** The same when no iteration fails. *)
Lemma for_range_total (P : Z -> St -> Prop) (lo hi : Z) (s : St) :
  lo <= hi ->
  P lo s ->
  (forall j t, lo <= j < hi -> P j t ->
     exists t', body j t = Ok t' /\ P (j + 1) t') ->
  exists t, for_range lo hi body s = Ok t /\ P hi t.
Proof.
  intros Hle HP Hstep.
  destruct (for_range_invariant P OutOfBounds False lo hi s Hle HP)
    as [H | [_ []]]; [|exact H].
  intros j t Hj HPj. left. apply Hstep; assumption.
Qed.
End Loops.

(** ** Addressing of the image buffer *)

Lemma storage_index_bounds (w h x y : Z) :
  0 <= x < w -> 0 <= y < h ->
  0 <= storage_index w h x y < w * h.
Proof. unfold storage_index. intros Hx Hy. nia. Qed.

Lemma storage_index_inj (w h x y x' y' : Z) :
  0 <= x < w -> 0 <= x' < w ->
  storage_index w h x y = storage_index w h x' y' ->
  x = x' /\ y = y'.
Proof.
  unfold storage_index. intros Hx Hx' Heq.
  assert (y = y') by nia. subst y'. split; lia.
Qed.

Lemma flip_in_range (t : Texture) (y : Z) :
  is_unsigned (height t) -> 0 <= y < height t ->
  flip t y = height t - 1 - y.
Proof.
  unfold is_unsigned, flip, u32. intros Hh Hy.
  rewrite (Z.mod_small (height t - y)) by lia.
  rewrite Z.mod_small by lia. lia.
Qed.

Lemma linearIndex_in_range (t : Texture) (w h x y : Z) :
  wf_texture t w h -> is_unsigned w -> is_unsigned h ->
  0 <= x < w -> 0 <= y < h ->
  linearIndex t x (flip t y) = storage_index w h x y.
Proof.
  intros (Hw & Hh & _) Huw Huh Hx Hy.
  rewrite flip_in_range by (rewrite Hh; assumption).
  unfold linearIndex, storage_index, u64, is_unsigned in *.
  rewrite Hw, Hh.
  rewrite (Z.mod_small (w * _)) by nia.
  rewrite Z.mod_small by nia. reflexivity.
Qed.

Lemma Texture_new_wf (w h : Z) :
  is_unsigned w -> is_unsigned h -> wf_texture (Texture_new w h) w h.
Proof.
  unfold is_unsigned, wf_texture, Texture_new, u64. intros Hw Hh. cbn.
  repeat split. rewrite length_replicate.
  rewrite Z.mod_small by nia. nia.
Qed.

Lemma Texture_get_in_range (t : Texture) (w h x y : Z) :
  wf_texture t w h -> is_unsigned w -> is_unsigned h ->
  0 <= x < w -> 0 <= y < h ->
  exists v, data t !! Z.to_nat (storage_index w h x y) = Some v
            /\ Texture_get t x y = Ok v.
Proof.
  intros Hwf Huw Huh Hx Hy. unfold Texture_get.
  rewrite (linearIndex_in_range t w h) by assumption.
  pose proof (storage_index_bounds w h x y Hx Hy) as Hb.
  destruct Hwf as (_ & _ & Hlen).
  unfold in_bounds.
  destruct (Z.ltb_spec (storage_index w h x y) (Z.of_nat (length (data t))));
    [|lia].
  destruct (lookup_lt_is_Some_2 (data t) (Z.to_nat (storage_index w h x y)))
    as [v Hv]; [lia|].
  exists v. rewrite Hv. split; reflexivity.
Qed.

Lemma Texture_set_in_range (t : Texture) (w h x y v : Z) :
  wf_texture t w h -> is_unsigned w -> is_unsigned h ->
  0 <= x < w -> 0 <= y < h ->
  Texture_set t x y v
  = Ok (mk_Texture w h (<[Z.to_nat (storage_index w h x y) := v]> (data t))).
Proof.
  intros Hwf Huw Huh Hx Hy. unfold Texture_set.
  rewrite (linearIndex_in_range t w h) by assumption.
  pose proof (storage_index_bounds w h x y Hx Hy) as Hb.
  destruct Hwf as (Hw & Hh & Hlen).
  unfold in_bounds.
  destruct (Z.ltb_spec (storage_index w h x y) (Z.of_nat (length (data t))));
    [|lia].
  rewrite Hw, Hh. reflexivity.
Qed.

Lemma wf_texture_insert (t : Texture) (w h : Z) (i : nat) (v : Z) :
  wf_texture t w h -> wf_texture (mk_Texture w h (<[i := v]> (data t))) w h.
Proof.
  intros (_ & _ & Hlen). unfold wf_texture. cbn.
  rewrite length_insert. auto.
Qed.

(** Reading a pixel after a write: the written pixel, or the old one. *)
Lemma Texture_get_set (t : Texture) (w h x y v x' y' : Z) :
  wf_texture t w h -> is_unsigned w -> is_unsigned h ->
  0 <= x < w -> 0 <= y < h -> 0 <= x' < w -> 0 <= y' < h ->
  exists t', Texture_set t x y v = Ok t' /\ wf_texture t' w h /\
    Texture_get t' x' y'
    = if (x' =? x) && (y' =? y) then Ok v else Texture_get t x' y'.
Proof.
  intros Hwf Huw Huh Hx Hy Hx' Hy'.
  rewrite (Texture_set_in_range t w h) by assumption.
  eexists. split; [reflexivity|].
  pose proof (wf_texture_insert t w h (Z.to_nat (storage_index w h x y)) v Hwf)
    as Hwf'.
  split; [exact Hwf'|].
  destruct (Texture_get_in_range _ w h x' y' Hwf' Huw Huh Hx' Hy')
    as (u' & Hu' & ->).
  destruct (Texture_get_in_range _ w h x' y' Hwf Huw Huh Hx' Hy')
    as (u & Hu & ->).
  cbn [data] in Hu'.
  pose proof (storage_index_bounds w h x y Hx Hy) as Hb.
  pose proof (storage_index_bounds w h x' y' Hx' Hy') as Hb'.
  destruct Hwf as (_ & _ & Hlen).
  destruct (Z.eqb_spec x' x) as [->|Hne]; cbn [andb].
  - destruct (Z.eqb_spec y' y) as [->|Hne].
    + rewrite list_lookup_insert_eq in Hu' by lia. congruence.
    + rewrite list_lookup_insert_ne in Hu'; [congruence|].
      intros Heq. apply Z2Nat.inj in Heq; [|lia|lia].
      apply storage_index_inj in Heq; [|lia|lia]. lia.
  - rewrite list_lookup_insert_ne in Hu'; [congruence|].
    intros Heq. apply Z2Nat.inj in Heq; [|lia|lia].
    apply storage_index_inj in Heq; [|lia|lia]. lia.
Qed.

Lemma Texture_get_new (w h x y : Z) :
  is_unsigned w -> is_unsigned h -> 0 <= x < w -> 0 <= y < h ->
  Texture_get (Texture_new w h) x y = Ok 0.
Proof.
  intros Huw Huh Hx Hy.
  destruct (Texture_get_in_range _ w h x y (Texture_new_wf w h Huw Huh)
              Huw Huh Hx Hy) as (v & Hv & ->).
  cbn [Texture_new data] in Hv.
  apply lookup_replicate in Hv. destruct Hv as [-> _]. reflexivity.
Qed.

(** A write to row [height] (one past the top) misses the buffer: the
    flipped row wraps around to [2^32 - 1]. *)
Lemma Texture_set_row_height (t : Texture) (w h x v : Z) :
  wf_texture t w h -> is_unsigned w -> is_unsigned h -> 0 <= x < w ->
  flip t h = 2 ^ 32 - 1
  /\ Z.of_nat (length (data t)) <= linearIndex t x (flip t h)
  /\ Texture_set t x h v = Err OutOfBounds.
Proof.
  intros (Hw & Hh & Hlen) Huw Huh Hx.
  assert (Hflip : flip t h = 2 ^ 32 - 1).
  { unfold flip, u32. rewrite Hh, Z.sub_diag. reflexivity. }
  assert (Hidx : Z.of_nat (length (data t)) <= linearIndex t x (flip t h)).
  { rewrite Hflip. unfold linearIndex, u64, is_unsigned in *. rewrite Hw.
    rewrite (Z.mod_small (w * _)) by nia.
    rewrite Z.mod_small by nia. nia. }
  repeat split; [exact Hflip | exact Hidx |].
  unfold Texture_set, in_bounds.
  destruct (Z.ltb_spec (linearIndex t x (flip t h))
              (Z.of_nat (length (data t)))); [lia | reflexivity].
Qed.

(** ** Shapes of rounded results *)

Lemma binary_round_aux_shape (sx : bool) (mx ex : Z) (lx : location) :
  let r := binary_round_aux F32.prec F32.emax sx mx ex lx in
  r = S754_zero sx \/ (exists m e, r = S754_finite sx m e)
  \/ r = S754_infinity sx \/ r = S754_nan.
Proof.
  unfold binary_round_aux.
  destruct (shr_fexp F32.prec F32.emax mx ex lx) as [mrs' e'].
  destruct (shr_fexp F32.prec F32.emax _ e' loc_Exact) as [mrs'' e''].
  destruct (shr_m mrs'') as [|m|m]; cbn zeta.
  - left. reflexivity.
  - destruct (e'' <=? F32.emax - F32.prec).
    + right. left. eauto.
    + right. right. left. reflexivity.
  - right. right. right. reflexivity.
Qed.

Lemma of_Z_shape (z : Z) :
  0 <= z ->
  F32.of_Z z = S754_zero false \/ (exists m e, F32.of_Z z = S754_finite false m e)
  \/ F32.of_Z z = S754_infinity false \/ F32.of_Z z = S754_nan.
Proof.
  intros Hz. unfold F32.of_Z, binary_normalize.
  destruct z as [|p|p]; [left; reflexivity | | lia].
  unfold binary_round.
  destruct (shl_align p 0 _) as [mz ez].
  apply binary_round_aux_shape.
Qed.

Lemma to_unsigned_range (f : float) (z : Z) :
  F32.to_unsigned f = Ok z -> is_unsigned z.
Proof.
  unfold F32.to_unsigned, is_unsigned.
  destruct (F32.trunc f) as [t|]; [|discriminate].
  destruct (Z.leb_spec 0 t); destruct (Z.ltb_spec t (2 ^ 32)); cbn;
    intros [= <-]; lia.
Qed.

Lemma to_unsigned_negative (m : positive) (e z : Z) :
  F32.to_unsigned (S754_finite true m e) = Ok z -> z = 0.
Proof.
  unfold F32.to_unsigned, F32.trunc.
  set (a := if 0 <=? e then Z.shiftl (Z.pos m) e else Z.shiftr (Z.pos m) (- e)).
  assert (Ha : 0 <= a).
  { subst a. destruct (0 <=? e).
    - apply Z.shiftl_nonneg. lia.
    - apply Z.shiftr_nonneg. lia. }
  destruct (Z.leb_spec 0 (- a)); destruct (Z.ltb_spec (- a) (2 ^ 32)); cbn;
    intros [= <-]; lia.
Qed.

(** A function value that is not positive gives the row count 0, when the
    conversion is defined at all. *)
Lemma nonpositive_rows (yf : float) (h n : Z) :
  0 <= h ->
  F32.leb yf F32.zero = true ->
  F32.to_unsigned (F32.mul yf (F32.of_Z h)) = Ok n ->
  n = 0.
Proof.
  intros Hh Hle Hn.
  destruct (of_Z_shape h Hh) as [Hz | [(m & e & Hz) | [Hz | Hz]]];
    rewrite Hz in Hn; clear Hz;
    destruct yf as [s | [|] | | [|] my ey]; try discriminate Hle;
    cbn in Hn; try discriminate Hn; try (injection Hn as <-; reflexivity).
  pose proof (binary_round_aux_shape true (Z.pos (my * m)) (ey + e) loc_Exact)
    as Hs. cbn zeta in Hs.
  change (SFmul F32.prec F32.emax (S754_finite true my ey) (S754_finite false m e))
    with (binary_round_aux F32.prec F32.emax true (Z.pos (my * m)) (ey + e)
            loc_Exact) in Hn.
  destruct Hs as [Hs | [(m' & e' & Hs) | [Hs | Hs]]]; rewrite Hs in Hn.
  - injection Hn as <-. reflexivity.
  - eapply to_unsigned_negative. exact Hn.
  - discriminate Hn.
  - discriminate Hn.
Qed.

(** ** Function::rasterize *)

Lemma fill_pixel_eq : cvt_uint32_rgba fill_color = Ok fill_pixel.
Proof. vm_compute. reflexivity. Qed.

Lemma outline_pixel_eq : cvt_uint32_rgba outline_color = Ok outline_pixel.
Proof. vm_compute. reflexivity. Qed.

Section FunctionRasterize.
Variable eval : float -> float.
Variables w h : Z.
Hypothesis Hw : is_unsigned w.
Hypothesis Hh : is_unsigned h.

Lemma filled_upto_start : filled_upto eval w h 0 0 (Texture_new w h).
Proof.
  split; [apply Texture_new_wf; assumption|].
  intros x' y' n' Hx' Hy' _.
  rewrite Texture_get_new by assumption.
  destruct (Z.ltb_spec x' 0); [lia|].
  destruct (Z.ltb_spec y' 0); [lia|].
  rewrite andb_false_r. reflexivity.
Qed.

Lemma fill_column (x n : Z) (tex : Texture) :
  0 <= x < w -> column_rows eval w h x = Ok n -> n <= h ->
  filled_upto eval w h x 0 tex ->
  exists tex',
    for_range 0 n (fun y tex =>
      c <- cvt_uint32_rgba fill_color ;; Texture_set tex x y c) tex = Ok tex'
    /\ filled_upto eval w h (x + 1) 0 tex'.
Proof.
  intros Hx Hn Hnh Hstart.
  pose proof (to_unsigned_range _ _ Hn) as Hnu. unfold is_unsigned in Hnu.
  destruct (for_range_total
              (fun y tex => c <- cvt_uint32_rgba fill_color ;;
                            Texture_set tex x y c)
              (fun y tex => filled_upto eval w h x y tex) 0 n tex)
    as (tex' & Hrun & Hend); [lia | exact Hstart | |].
  - intros y t Hy [Hwf Hpix].
    rewrite fill_pixel_eq. cbn [bind].
    destruct (Texture_get_set t w h x y fill_pixel 0 0 Hwf Hw Hh)
      as (t' & Hset & Hwf' & _); [lia..|].
    exists t'. split; [exact Hset|]. split; [exact Hwf'|].
    intros x' y' n' Hx' Hy' Hn'.
    destruct (Texture_get_set t w h x y fill_pixel x' y' Hwf Hw Hh)
      as (t'' & Hset' & _ & Hget); [lia..|].
    rewrite Hset in Hset'. injection Hset' as <-.
    rewrite Hget, (Hpix x' y' n' Hx' Hy' Hn').
    destruct (Z.eqb_spec x' x); destruct (Z.eqb_spec y' y);
      destruct (Z.ltb_spec x' x); destruct (Z.ltb_spec y' n');
      destruct (Z.ltb_spec y' y); destruct (Z.ltb_spec y' (y + 1));
      cbn; try reflexivity; lia.
  - exists tex'. split; [exact Hrun|].
    destruct Hend as [Hwf Hpix]. split; [exact Hwf|].
    intros x' y' n' Hx' Hy' Hn'.
    rewrite (Hpix x' y' n' Hx' Hy' Hn').
    destruct (Z.eqb_spec x' x) as [->|Hne].
    + assert (n' = n) by congruence. subst n'.
      destruct (Z.eqb_spec x (x + 1)); [lia|].
      destruct (Z.ltb_spec x x); [lia|].
      destruct (Z.ltb_spec x (x + 1)); [|lia].
      destruct (Z.ltb_spec y' n); destruct (Z.ltb_spec y' 0);
        cbn; try reflexivity; lia.
    + destruct (Z.eqb_spec x' (x + 1)); destruct (Z.ltb_spec x' x);
        destruct (Z.ltb_spec x' (x + 1)); destruct (Z.ltb_spec y' n');
        destruct (Z.ltb_spec y' 0); cbn; try reflexivity; lia.
Qed.

Lemma Function_rasterize_filled :
  rows_fit eval w h ->
  exists tex, Function_rasterize eval w h = Ok tex /\ filled_upto eval w h w 0 tex.
Proof.
  intros Hfit. unfold Function_rasterize.
  apply (for_range_total _ (fun x tex => filled_upto eval w h x 0 tex)).
  - unfold is_unsigned in Hw. lia.
  - exact filled_upto_start.
  - intros x t Hx Hinv.
    destruct (Hfit x Hx) as (n & Hn & Hnh).
    rewrite Hn. cbn [bind].
    apply fill_column; assumption.
Qed.
(** The fill loop of a column whose row count fits writes inside the
    image. *)
Lemma fill_column_fits (x n : Z) (tex : Texture) :
  0 <= x < w -> 0 <= n <= h -> wf_texture tex w h ->
  exists tex',
    for_range 0 n (fun y tex =>
      c <- cvt_uint32_rgba fill_color ;; Texture_set tex x y c) tex = Ok tex'
    /\ wf_texture tex' w h.
Proof.
  intros Hx Hn Hwf.
  apply (for_range_total _ (fun _ t => wf_texture t w h)); [lia | exact Hwf |].
  intros y t Hy Ht. rewrite fill_pixel_eq. cbn [bind].
  rewrite (Texture_set_in_range t w h) by first [assumption | lia].
  eexists. split; [reflexivity|]. apply wf_texture_insert. exact Ht.
Qed.

(** The fill loop of a column whose row count exceeds the height fills
    the rows below [height] and then writes row [height]. *)
Lemma fill_column_overflow (x n : Z) (tex : Texture) :
  0 <= x < w -> h < n -> wf_texture tex w h ->
  for_range 0 n (fun y tex =>
    c <- cvt_uint32_rgba fill_color ;; Texture_set tex x y c) tex
  = Err OutOfBounds.
Proof.
  intros Hx Hn Hwf.
  assert (Hh0 : 0 <= h) by (unfold is_unsigned in Hh; lia).
  destruct (for_range_invariant
              (fun y tex => c <- cvt_uint32_rgba fill_color ;;
                            Texture_set tex x y c)
              (fun y t => wf_texture t w h /\ y <= h)
              OutOfBounds True 0 n tex)
    as [(t & _ & _ & Hle) | [Hrun _]].
  - lia.
  - split; [exact Hwf | exact Hh0].
  - intros y t Hy [Ht Hyh]. rewrite fill_pixel_eq. cbn [bind].
    destruct (Z.eq_dec y h) as [Heq|Hne].
    + right. subst y. split; [|exact I].
      apply (Texture_set_row_height t w h x); assumption.
    + left. rewrite (Texture_set_in_range t w h) by first [assumption | lia].
      eexists. split; [reflexivity|].
      split; [apply wf_texture_insert; exact Ht | lia].
  - lia.
  - exact Hrun.
Qed.

(** The first column whose row count exceeds the height stops
    [Function::rasterize]. *)
Lemma Function_rasterize_overflow (x n : Z) :
  0 <= x < w -> column_rows eval w h x = Ok n -> h < n ->
  (forall x', 0 <= x' < x ->
     exists n', column_rows eval w h x' = Ok n' /\ n' <= h) ->
  Function_rasterize eval w h = Err OutOfBounds.
Proof.
  intros Hx Hn Hlt Hprefix. unfold Function_rasterize.
  destruct (for_range_invariant
              (fun x tex =>
                 yval <- column_rows eval w h x ;;
                 for_range 0 yval (fun y tex =>
                   c <- cvt_uint32_rgba fill_color ;;
                   Texture_set tex x y c) tex)
              (fun x' t => wf_texture t w h /\ x' <= x)
              OutOfBounds True 0 w (Texture_new w h))
    as [(t & _ & _ & Hle) | [Hrun _]].
  - lia.
  - split; [apply Texture_new_wf; assumption | lia].
  - intros j t Hj [Ht Hjx].
    destruct (Z.eq_dec j x) as [Heq|Hne].
    + right. subst j. rewrite Hn. cbn [bind].
      split; [apply fill_column_overflow; assumption | exact I].
    + left. assert (Hjp : 0 <= j < x) by lia.
      destruct (Hprefix j Hjp) as (n' & Hn' & Hle'). rewrite Hn'. cbn [bind].
      pose proof (to_unsigned_range _ _ Hn') as Hnu. unfold is_unsigned in Hnu.
      assert (Hjw : 0 <= j < w) by lia.
      assert (Hn0 : 0 <= n' <= h) by lia.
      destruct (fill_column_fits j n' t Hjw Hn0 Ht) as (t' & Hrun & Ht').
      exists t'. split; [exact Hrun|]. split; [exact Ht' | lia].
  - lia.
  - exact Hrun.
Qed.
End FunctionRasterize.

(** C8, as amended: for every function and output size whose row counts
    [yf * height] are defined as unsigned values and at most [height] in
    every column, [Function::rasterize] produces the image in which
    exactly the rows below [yf * height] of each column carry the fill
    colour (0.6, 0.6, 0.6, 0.95), a column with [yf <= 0] has no fill,
    and every other pixel is transparent black. *)
Theorem Function_rasterize_fills_area (eval : float -> float) (w h : Z) :
  is_unsigned w -> is_unsigned h ->
  rows_fit eval w h ->
  rasterize_fills eval w h.
Proof.
  intros Hw Hh Hfit.
  destruct (Function_rasterize_filled eval w h Hw Hh Hfit)
    as (tex & Hrun & Hwf & Hpix).
  exists tex. split; [exact Hrun|]. split; [exact Hwf|].
  intros x y Hx Hy.
  destruct (Hfit x Hx) as (n & Hn & Hnh).
  exists n. split; [exact Hn|]. split.
  - rewrite (Hpix x y n Hx Hy Hn).
    destruct (Z.ltb_spec x w); [|lia].
    destruct (Z.ltb_spec y 0); [lia|].
    rewrite andb_false_r, orb_false_r. reflexivity.
  - intros Hle. unfold column_rows in Hn.
    eapply nonpositive_rows; [|exact Hle|exact Hn].
    unfold is_unsigned in Hh. lia.
Qed.

(** C8, as stated, fails: where the row count of a column exceeds the
    height, the fill loop writes row [height], outside the image.  A
    curve of constant value 2 does so at every size.  A default tent,
    whose values lie within [0,1], does so at the height 16777219: as a
    [float] this height is 16777220, and so is the row count of the
    column in which the tent is 1. *)
Lemma Function_rasterize_fills_area_counterexample :
  (Function_rasterize (Function_eval (FPiecewiseLinear tall_curve)) 2 2
   = Err OutOfBounds
   /\ ~ rasterize_fills (Function_eval (FPiecewiseLinear tall_curve)) 2 2)
  /\ (column_rows (Function_eval (FTent Tent_default)) 3 16777219 1
      = Ok 16777220
      /\ Function_rasterize (Function_eval (FTent Tent_default)) 3 16777219
         = Err OutOfBounds
      /\ ~ rasterize_fills (Function_eval (FTent Tent_default)) 3 16777219).
Proof.
  split.
  - split; [vm_compute; reflexivity|].
    intros (tex & Hrun & _). vm_compute in Hrun. discriminate Hrun.
  - assert (Hrows : column_rows (Function_eval (FTent Tent_default))
                      3 16777219 1 = Ok 16777220)
      by (vm_compute; reflexivity).
    assert (Hrun : Function_rasterize (Function_eval (FTent Tent_default))
                     3 16777219 = Err OutOfBounds).
    { apply (Function_rasterize_overflow _ 3 16777219) with (x := 1)
                                                           (n := 16777220).
      - unfold is_unsigned. lia.
      - unfold is_unsigned. lia.
      - lia.
      - exact Hrows.
      - lia.
      - intros x' Hx'. assert (Hz : x' = 0) by lia. subst x'.
        exists 0. split; [vm_compute; reflexivity | lia]. }
    split; [exact Hrows|]. split; [exact Hrun|].
    intros (tex & Hok & _). rewrite Hrun in Hok. discriminate Hok.
Qed.

Lemma Function_rasterize_fills_area_witness :
  rasterize_fills (Function_eval (FTent Tent_default)) 3 4.
Proof.
  apply Function_rasterize_fills_area.
  - unfold is_unsigned. lia.
  - unfold is_unsigned. lia.
  - intros x Hx.
    assert (Hc : x = 0 \/ x = 1 \/ x = 2) by lia.
    destruct Hc as [-> | [-> | ->]]; vm_compute; eexists;
      (split; [reflexivity | discriminate]).
Defined.

(** ** layerOver *)

Section LoopsPartial.
Context {St : Type}.
Variable body : Z -> St -> result St.

(** What every successful iteration preserves holds after the loop. *)
Lemma for_loop_preserves (P : St -> Prop) (n : nat) :
  (forall j t t', P t -> body j t = Ok t' -> P t') ->
  forall i s t, P s -> for_loop n i body s = Ok t -> P t.
Proof.
  intros Hstep. induction n as [|n IH]; intros i s t HP Hrun.
  - injection Hrun as <-. exact HP.
  - cbn [for_loop] in Hrun.
    destruct (body i s) as [s'|e] eqn:Hb; [|discriminate Hrun].
    cbn [bind] in Hrun. eapply IH; [|exact Hrun].
    eapply Hstep; eassumption.
Qed.

Lemma for_range_preserves (P : St -> Prop) (lo hi : Z) (s t : St) :
  (forall j t t', P t -> body j t = Ok t' -> P t') ->
  P s -> for_range lo hi body s = Ok t -> P t.
Proof. intros Hstep HP Hrun. eapply for_loop_preserves; eassumption. Qed.

(** A loop does not succeed when its iteration [j] fails on every state
    that satisfies what the iterations preserve. *)
Lemma for_loop_fails (P : St -> Prop) (j : Z) (n : nat) :
  (forall i t t', P t -> body i t = Ok t' -> P t') ->
  (forall t, P t -> is_ok (body j t) = false) ->
  forall i s, P s -> i <= j < i + Z.of_nat n ->
              is_ok (for_loop n i body s) = false.
Proof.
  intros Hstep Hfail. induction n as [|n IH]; intros i s HP Hj; [lia|].
  cbn [for_loop].
  destruct (body i s) as [s'|e] eqn:Hb; [|reflexivity].
  cbn [bind].
  destruct (Z.eq_dec i j) as [->|Hne].
  - specialize (Hfail s HP). rewrite Hb in Hfail. discriminate Hfail.
  - apply IH; [eapply Hstep; eassumption | lia].
Qed.

Lemma for_range_fails (P : St -> Prop) (j lo hi : Z) (s : St) :
  (forall i t t', P t -> body i t = Ok t' -> P t') ->
  (forall t, P t -> is_ok (body j t) = false) ->
  P s -> lo <= j < hi ->
  is_ok (for_range lo hi body s) = false.
Proof.
  intros Hstep Hfail HP Hj. unfold for_range.
  apply (for_loop_fails P j); [assumption.. | lia].
Qed.
End LoopsPartial.

Lemma Texture_set_wf (t t' : Texture) (w h x y v : Z) :
  wf_texture t w h -> Texture_set t x y v = Ok t' -> wf_texture t' w h.
Proof.
  intros (Hw & Hh & Hlen). unfold Texture_set.
  destruct (in_bounds _ _); [|discriminate].
  intros [= <-]. unfold wf_texture. cbn. rewrite length_insert. auto.
Qed.

Lemma Function_rasterize_wf (eval : float -> float) (w h : Z) (tex : Texture) :
  is_unsigned w -> is_unsigned h ->
  Function_rasterize eval w h = Ok tex -> wf_texture tex w h.
Proof.
  intros Hw Hh. unfold Function_rasterize.
  apply (for_range_preserves _ (fun t => wf_texture t w h));
    [|apply Texture_new_wf; assumption].
  intros x t t' Hwf.
  destruct (column_rows eval w h x) as [n|e]; [|discriminate]. cbn [bind].
  apply (for_range_preserves _ (fun t => wf_texture t w h)); [|exact Hwf].
  intros y u u' Hu.
  destruct (cvt_uint32_rgba fill_color) as [c|e]; [|discriminate].
  cbn [bind]. apply Texture_set_wf. exact Hu.
Qed.

Lemma Checkers_rasterize_wf (c : Checkers) (w h : Z) (tex : Texture) :
  is_unsigned w -> is_unsigned h ->
  Checkers_rasterize c w h = Ok tex -> wf_texture tex w h.
Proof.
  intros Hw Hh. unfold Checkers_rasterize.
  apply (for_range_preserves _ (fun t => wf_texture t w h));
    [|apply Texture_new_wf; assumption].
  intros y t t' Hwf.
  apply (for_range_preserves _ (fun t => wf_texture t w h)); [|exact Hwf].
  intros x u u' Hu.
  destruct (checkerSize c =? 0); [discriminate|].
  destruct (cvt_uint32_rgba _) as [v|e]; [|discriminate].
  cbn [bind]. apply Texture_set_wf. exact Hu.
Qed.

Lemma Layer_rasterize_wf (l : Layer) (w h : Z) (tex : Texture) :
  is_unsigned w -> is_unsigned h ->
  Layer_rasterize l w h = Ok tex -> wf_texture tex w h.
Proof.
  destruct l as [f|c]; cbn [Layer_rasterize].
  - apply Function_rasterize_wf.
  - apply Checkers_rasterize_wf.
Qed.

(** The only error of the colour codec is an undefined conversion. *)
Lemma to_unsigned_error (f : float) (e : error) :
  F32.to_unsigned f = Err e -> e = UndefinedConversion.
Proof.
  unfold F32.to_unsigned. destruct (F32.trunc f) as [z|].
  - destruct ((0 <=? z) && (z <? 2 ^ 32)); [discriminate|]. congruence.
  - congruence.
Qed.

Lemma cvt_uint32_error (f : float) (e : error) :
  cvt_uint32 f = Err e -> e = UndefinedConversion.
Proof. apply to_unsigned_error. Qed.

Lemma cvt_uint32_rgba_error (v : vec4f) (e : error) :
  cvt_uint32_rgba v = Err e -> e = UndefinedConversion.
Proof.
  unfold cvt_uint32_rgba. intros H.
  destruct (cvt_uint32 (v4x v)) as [r|e1] eqn:H1; cbn [bind] in H;
    [|apply cvt_uint32_error in H1; congruence].
  destruct (cvt_uint32 (v4y v)) as [g|e2] eqn:H2; cbn [bind] in H;
    [|apply cvt_uint32_error in H2; congruence].
  destruct (cvt_uint32 (v4z v)) as [b|e3] eqn:H3; cbn [bind] in H;
    [|apply cvt_uint32_error in H3; congruence].
  destruct (cvt_uint32 (v4w v)) as [a|e4] eqn:H4; cbn [bind] in H;
    [discriminate H|apply cvt_uint32_error in H4; congruence].
Qed.

Lemma blend_pixel_error (b a : Z) (e : error) :
  blend_pixel b a = Err e -> e = UndefinedConversion.
Proof. apply cvt_uint32_rgba_error. Qed.

Section ZipWithResult.
Context {A B C : Type}.
Variable f : A -> B -> result C.

Lemma zip_with_result_ok (la : list A) :
  forall (lb : list B) (lc : list C),
    length lb = length la -> length lc = length la ->
    (forall (i : nat) a b, la !! i = Some a -> lb !! i = Some b ->
       exists c, f a b = Ok c /\ lc !! i = Some c) ->
    zip_with_result f la lb = Ok lc.
Proof.
  induction la as [|a la IH]; intros [|b lb] [|c lc] Hlb Hlc Hall;
    try discriminate; [reflexivity|].
  cbn [zip_with_result].
  destruct (Hall O a b eq_refl eq_refl) as (c' & Hc' & [= <-]).
  rewrite Hc'. cbn [bind].
  rewrite (IH lb lc); [reflexivity | cbn in *; lia | cbn in *; lia |].
  intros i a' b' Ha' Hb'. apply (Hall (S i)); assumption.
Qed.

Lemma zip_with_result_err (e : error) (la : list A) :
  (forall a b e', f a b = Err e' -> e' = e) ->
  forall (lb : list B),
    (exists (i : nat) a b, la !! i = Some a /\ lb !! i = Some b
                            /\ f a b = Err e) ->
    zip_with_result f la lb = Err e.
Proof.
  intros Honly.
  induction la as [|a la IH]; intros lb (i & a' & b' & Ha & Hb & Hf).
  - discriminate Ha.
  - destruct lb as [|b lb]; [discriminate Hb|].
    cbn [zip_with_result].
    destruct (f a b) as [c|e'] eqn:Hab; cbn [bind].
    + destruct i as [|i].
      * cbn in Ha, Hb. congruence.
      * rewrite (IH lb); [reflexivity|]. exists i, a', b'. auto.
    + f_equal. eapply Honly. exact Hab.
Qed.
End ZipWithResult.

Lemma zip_with_result_ext {A B C : Type} (f g : A -> B -> result C) :
  (forall a b, f a b = g a b) ->
  forall la lb, zip_with_result f la lb = zip_with_result g la lb.
Proof.
  intros Hfg. induction la as [|a la IH]; intros [|b lb]; try reflexivity.
  cbn [zip_with_result]. rewrite Hfg, IH. reflexivity.
Qed.

(** The blend of [layerOver] is [over (pixel of B, pixel of A)], with the
    operator as the specification gives it. *)
Lemma blend_pixel_over_pixels (b a : Z) : blend_pixel b a = over_pixels b a.
Proof. reflexivity. Qed.

Lemma u32_small (z : Z) : is_unsigned z -> u32 z = z.
Proof. unfold is_unsigned, u32. intros Hz. apply Z.mod_small. exact Hz. Qed.

Section LayerOver.
Variables w h : Z.
Hypothesis Hw : is_unsigned w.
Hypothesis Hh : is_unsigned h.
Variables A B : Texture.
Hypothesis HA : wf_texture A w h.
Hypothesis HB : wf_texture B w h.

Lemma layerOver_pixel (x y : Z) (B' : Texture) :
  0 <= x < w -> 0 <= y < h ->
  blended_upto (data A) (data B) w h y x B' ->
  (exists B'',
      (a <- Texture_get A (u32 x) (u32 y) ;;
       b <- Texture_get B' (u32 x) (u32 y) ;;
       v <- blend_pixel b a ;;
       Texture_set B' (u32 x) (u32 y) v) = Ok B''
      /\ blended_upto (data A) (data B) w h y (x + 1) B'')
  \/ ((a <- Texture_get A (u32 x) (u32 y) ;;
       b <- Texture_get B' (u32 x) (u32 y) ;;
       v <- blend_pixel b a ;;
       Texture_set B' (u32 x) (u32 y) v) = Err UndefinedConversion
      /\ blend_undefined (data A) (data B)).
Proof.
  intros Hx Hy [Hwf Hinv].
  unfold is_unsigned in Hw, Hh.
  rewrite !u32_small by (unfold is_unsigned; lia).
  destruct (Texture_get_in_range A w h x y HA Hw Hh Hx Hy) as (a & Ha & ->).
  destruct (Texture_get_in_range B' w h x y Hwf Hw Hh Hx Hy) as (b & Hb & ->).
  cbn [bind].
  pose proof (storage_index_bounds w h x y Hx Hy) as Hidx.
  set (k := Z.to_nat (storage_index w h x y)) in *.
  assert (Hk : Z.of_nat k = w * (h - 1 - y) + x).
  { subst k. unfold storage_index in *. lia. }
  assert (Hrow : w * (h - y) = w * (h - 1 - y) + w) by ring.
  assert (Hkn : Z.of_nat k < w * h) by (unfold storage_index in Hidx; lia).
  assert (Hb0 : data B !! k = Some b).
  { rewrite <- Hb. symmetry. apply (Hinv k Hkn). right. lia. }
  destruct (blend_pixel b a) as [v|e] eqn:Hblend; cbn [bind].
  - left. rewrite (Texture_set_in_range B' w h) by assumption.
    fold k. eexists. split; [reflexivity|].
    split; [apply wf_texture_insert; exact Hwf|].
    intros i Hi. cbn [data]. destruct (Hinv i Hi) as [Hdone Hrest].
    destruct Hwf as (_ & _ & Hlen).
    destruct (Nat.eq_dec i k) as [->|Hne].
    + split.
      * intros _. exists a, b, v.
        rewrite list_lookup_insert_eq by lia. auto.
      * intros Hc. lia.
    + rewrite list_lookup_insert_ne by congruence. split.
      * intros Hc. apply Hdone. lia.
      * intros Hc. apply Hrest. lia.
  - right. apply blend_pixel_error in Hblend as Heq. subst e.
    split; [reflexivity|]. exists k, a, b. auto.
Qed.

Lemma layerOver_row (y : Z) (B' : Texture) :
  0 <= y < h ->
  blended_upto (data A) (data B) w h y 0 B' ->
  (exists B'',
      for_range 0 w (fun x B =>
        a <- Texture_get A (u32 x) (u32 y) ;;
        b <- Texture_get B (u32 x) (u32 y) ;;
        v <- blend_pixel b a ;;
        Texture_set B (u32 x) (u32 y) v) B' = Ok B''
      /\ blended_upto (data A) (data B) w h (y + 1) 0 B'')
  \/ (for_range 0 w (fun x B =>
        a <- Texture_get A (u32 x) (u32 y) ;;
        b <- Texture_get B (u32 x) (u32 y) ;;
        v <- blend_pixel b a ;;
        Texture_set B (u32 x) (u32 y) v) B' = Err UndefinedConversion
      /\ blend_undefined (data A) (data B)).
Proof.
  intros Hy Hstart.
  destruct (for_range_invariant
              (fun x B =>
                 a <- Texture_get A (u32 x) (u32 y) ;;
                 b <- Texture_get B (u32 x) (u32 y) ;;
                 v <- blend_pixel b a ;;
                 Texture_set B (u32 x) (u32 y) v)
              (fun x t => blended_upto (data A) (data B) w h y x t)
              UndefinedConversion (blend_undefined (data A) (data B))
              0 w B')
    as [(B'' & Hrun & Hend) | Hfail].
  - unfold is_unsigned in Hw. lia.
  - exact Hstart.
  - intros x t Hx Hinv. apply layerOver_pixel; assumption.
  - left. exists B''. split; [exact Hrun|].
    destruct Hend as [Hwf Hinv]. split; [exact Hwf|].
    intros i Hi. destruct (Hinv i Hi) as [Hdone Hrest].
    assert (Hrow : w * (h - y) = w * (h - 1 - y) + w) by ring.
    assert (Hrow' : w * (h - 1 - (y + 1)) = w * (h - 1 - y) - w) by ring.
    assert (Hrow'' : w * (h - (y + 1)) = w * (h - 1 - y)) by ring.
    split.
    + intros Hc. apply Hdone. lia.
    + intros Hc. apply Hrest. lia.
  - right. exact Hfail.
Qed.

Lemma layerOver_blends :
  (exists B', layerOver A B = Ok B'
              /\ blended_upto (data A) (data B) w h h 0 B')
  \/ (layerOver A B = Err UndefinedConversion
      /\ blend_undefined (data A) (data B)).
Proof.
  unfold layerOver.
  destruct HA as (HAw & HAh & _). rewrite HAw, HAh.
  apply (for_range_invariant _
           (fun y t => blended_upto (data A) (data B) w h y 0 t)).
  - unfold is_unsigned in Hh. lia.
  - split; [exact HB|]. intros i Hi.
    assert (Hrow : w * (h - 0) = w * (h - 1 - 0) + w) by ring.
    assert (Hall : w * (h - 0) = w * h) by ring.
    split.
    + intros Hc. lia.
    + reflexivity.
  - intros y t Hy Hinv. apply layerOver_row; assumption.
Qed.

(** [layerOver(A, B)] replaces every pixel of [B] by the blend of that
    pixel with the pixel of [A]. *)
Lemma layerOver_zip :
  layerOver A B
  = (d <- zip_with_result blend_pixel (data B) (data A) ;;
     Ok (mk_Texture (width B) (height B) d)).
Proof.
  destruct layerOver_blends as [(B' & -> & Hwf & Hinv) | [-> Hbad]].
  - destruct HA as (_ & _ & HlenA). destruct HB as (HBw & HBh & HlenB).
    destruct Hwf as (Hw' & Hh' & Hlen').
    rewrite (zip_with_result_ok blend_pixel (data B) (data A) (data B')).
    + cbn [bind]. rewrite HBw, HBh. destruct B' as [w' h' d']. cbn in *.
      congruence.
    + lia.
    + lia.
    + intros i b a Hb Ha.
      assert (Hi : Z.of_nat i < w * h).
      { apply lookup_lt_Some in Hb. lia. }
      destruct (Hinv i Hi) as [Hdone _].
      destruct Hdone as (a' & b' & v & Ha' & Hb' & Hblend & Hv).
      { left. assert (w * (h - h) = 0) by ring. lia. }
      exists v. split; [congruence | exact Hv].
  - rewrite (zip_with_result_err blend_pixel UndefinedConversion).
    + reflexivity.
    + intros b a e. apply blend_pixel_error.
    + destruct Hbad as (i & a & b & Ha & Hb & Hblend).
      exists i, b, a. auto.
Qed.

(** In the words of the specification: every pixel of [B] becomes
    [over (pixel of B, pixel of A)]. *)
Lemma layerOver_composite_over : layerOver A B = composite_over B A.
Proof.
  rewrite layerOver_zip. unfold composite_over.
  rewrite (zip_with_result_ext blend_pixel over_pixels);
    [reflexivity | exact blend_pixel_over_pixels].
Qed.

Lemma layerOver_wf (B' : Texture) :
  layerOver A B = Ok B' -> wf_texture B' w h.
Proof.
  destruct layerOver_blends as [(B'' & -> & Hwf & _) | [-> _]].
  - intros [= <-]. exact Hwf.
  - discriminate.
Qed.
End LayerOver.

(** ** TFEditor::rasterize: compositing *)

Lemma zero_image_eq (w h : Z) :
  is_unsigned w -> is_unsigned h -> zero_image w h = Texture_new w h.
Proof.
  unfold is_unsigned, zero_image, Texture_new, u64. intros Hw Hh.
  rewrite Z.mod_small by nia. reflexivity.
Qed.

Section Composite.
Variables w h : Z.
Hypothesis Hw : is_unsigned w.
Hypothesis Hh : is_unsigned h.

Lemma blend_under_error (e : error) (fs : list FunctionSP) :
  fold_left (blend_under w h) fs (Err e) = Err e.
Proof. induction fs as [|f fs IH]; [reflexivity | exact IH]. Qed.

Lemma blend_functions_eq (fs : list FunctionSP) :
  forall acc, wf_texture acc w h ->
    for_each fs (fun f tex =>
      layer <- Function_rasterize (Function_eval (sp_obj f)) w h ;;
      layerOver layer tex) acc
    = fold_left (blend_under w h) fs (Ok acc)
    /\ forall t,
        for_each fs (fun f tex =>
          layer <- Function_rasterize (Function_eval (sp_obj f)) w h ;;
          layerOver layer tex) acc = Ok t ->
        wf_texture t w h.
Proof.
  induction fs as [|f fs IH]; intros acc Hacc.
  - split; [reflexivity|]. intros t [= <-]. exact Hacc.
  - cbn [for_each fold_left]. unfold blend_under at 2.
    cbn [bind Layer_rasterize].
    destruct (Function_rasterize (Function_eval (sp_obj f)) w h)
      as [layer|e] eqn:Hlayer; cbn [bind].
    + pose proof (Function_rasterize_wf _ w h layer Hw Hh Hlayer) as Hl.
      rewrite <- (layerOver_composite_over w h Hw Hh layer acc Hl Hacc).
      destruct (layerOver layer acc) as [acc'|e] eqn:Hover; cbn [bind].
      * apply IH. eapply (layerOver_wf w h Hw Hh layer acc); eassumption.
      * rewrite blend_under_error. split; [reflexivity | discriminate].
    + rewrite blend_under_error. split; [reflexivity | discriminate].
Qed.

Lemma composite_eq (ed : TFEditor) :
  TFEditor_composite ed w h = composite_spec ed w h
  /\ forall t, TFEditor_composite ed w h = Ok t -> wf_texture t w h.
Proof.
  unfold TFEditor_composite, composite_spec.
  rewrite zero_image_eq by assumption.
  destruct (blend_functions_eq (functions ed) (Texture_new w h)
              (Texture_new_wf w h Hw Hh)) as [<- Hwf].
  destruct (for_each (functions ed) _ (Texture_new w h)) as [acc|e];
    cbn [bind]; [|split; [reflexivity | discriminate]].
  specialize (Hwf acc eq_refl).
  destruct (background ed) as [bg|]; [|split; [reflexivity|]].
  - destruct (Layer_rasterize bg w h) as [b|e] eqn:Hbg; cbn [bind];
      [|split; [reflexivity | discriminate]].
    pose proof (Layer_rasterize_wf bg w h b Hw Hh Hbg) as Hb.
    split.
    + apply layerOver_composite_over with (w := w) (h := h); assumption.
    + intros t. apply (layerOver_wf w h Hw Hh b acc); assumption.
  - intros t [= <-]. exact Hwf.
Qed.
End Composite.

Lemma TFEditor_composite_wf (ed : TFEditor) (w h : Z) (tex : Texture) :
  is_unsigned w -> is_unsigned h ->
  TFEditor_composite ed w h = Ok tex -> wf_texture tex w h.
Proof. intros Hw Hh. apply composite_eq; assumption. Qed.

(** C1: [TFEditor::rasterize] starts from the all-zero image; every
    function, in list order, is rasterized to a temporary image and each
    accumulator pixel is replaced by [over (accumulator, temporary)]
    (the accumulator is the [src] operand, the new layer the [dst]
    operand of [result = src + (1 - src.alpha) * dst]); then, if a
    background is set, the accumulated image is composited over the
    rasterized background, whatever the order of the functions.  This is
    the image on which the outline is drawn afterwards. *)
Theorem rasterize_composites_in_list_order (ed : TFEditor) (w h : Z) :
  is_unsigned w -> is_unsigned h ->
  TFEditor_composite ed w h = composite_spec ed w h
  /\ TFEditor_rasterize ed w h = rasterize_spec ed w h.
Proof.
  intros Hw Hh. unfold TFEditor_rasterize, rasterize_spec.
  destruct (composite_eq w h Hw Hh ed) as [-> _]. split; reflexivity.
Qed.

Lemma rasterize_composites_in_list_order_witness :
  is_ok (TFEditor_rasterize layered_editor 4 4) = true
  /\ TFEditor_composite layered_editor 4 4 = composite_spec layered_editor 4 4
  /\ TFEditor_rasterize layered_editor 4 4 = rasterize_spec layered_editor 4 4.
Proof.
  split; [vm_compute; reflexivity|].
  apply rasterize_composites_in_list_order; unfold is_unsigned; lia.
Defined.

(** ** The order of floats *)

Ltac compare_cases :=
  repeat match goal with
  | |- context [Z.compare ?a ?b] => destruct (Z.compare_spec a b)
  | H : context [Z.compare ?a ?b] |- _ => destruct (Z.compare_spec a b)
  | |- context [Pos.compare_cont Eq ?a ?b] =>
      change (Pos.compare_cont Eq a b) with (Pos.compare a b);
      destruct (Pos.compare_spec a b)
  | H : context [Pos.compare_cont Eq ?a ?b] |- _ =>
      change (Pos.compare_cont Eq a b) with (Pos.compare a b) in H;
      destruct (Pos.compare_spec a b)
  end.

Lemma SFcompare_antisym (a b : float) :
  SFcompare b a = option_map CompOpp (SFcompare a b).
Proof.
  destruct a as [sa|sa| |sa ma ea], b as [sb|sb| |sb mb eb]; cbn;
    try reflexivity; try (destruct sa; reflexivity);
    try (destruct sb; reflexivity); try (destruct sa, sb; reflexivity).
  destruct sa, sb; cbn; try reflexivity;
    rewrite (Z.compare_antisym ea eb);
    change (Pos.compare_cont Eq mb ma) with (Pos.compare mb ma);
    change (Pos.compare_cont Eq ma mb) with (Pos.compare ma mb);
    rewrite (Pos.compare_antisym ma mb);
    destruct (ea ?= eb); destruct (ma ?= mb)%positive; reflexivity.
Qed.

Lemma ltb_irrefl (a : float) : F32.ltb a a = false.
Proof.
  unfold F32.ltb, SFltb.
  destruct a as [s|s| |s m e]; cbn; try reflexivity;
    destruct s; try reflexivity;
    rewrite Z.compare_refl;
    change (Pos.compare_cont Eq m m) with (Pos.compare m m);
    rewrite Pos.compare_refl; reflexivity.
Qed.

Lemma ltb_asym (a b : float) : F32.ltb a b = true -> F32.ltb b a = false.
Proof.
  unfold F32.ltb, SFltb. rewrite (SFcompare_antisym a b).
  destruct (SFcompare a b) as [[| |]|]; cbn; congruence.
Qed.

(** For numbers, [a < b] is the negation of [b <= a]. *)
Lemma ltb_negb_leb (a b : float) :
  F32.is_nan a = false -> F32.is_nan b = false ->
  F32.ltb a b = negb (F32.leb b a).
Proof.
  unfold F32.ltb, F32.leb, SFltb, SFleb. rewrite (SFcompare_antisym a b).
  intros Ha Hb.
  destruct a as [sa|sa| |sa ma ea]; try discriminate Ha;
    destruct b as [sb|sb| |sb mb eb]; try discriminate Hb;
    destruct (SFcompare _ _) as [[| |]|] eqn:Hc; cbn; try reflexivity;
    cbn in Hc; discriminate Hc.
Qed.

Lemma ltb_negative_transitive (a b c : float) :
  F32.is_nan b = false ->
  F32.ltb a b = false -> F32.ltb b c = false -> F32.ltb a c = false.
Proof.
  unfold F32.ltb, SFltb.
  destruct a as [sa|sa| |sa ma ea], b as [sb|sb| |sb mb eb],
           c as [sc|sc| |sc mc ec];
    intros Hb; try discriminate Hb; cbn; try reflexivity;
    repeat match goal with s : bool |- _ => destruct s end; cbn;
    try reflexivity; try discriminate.
  all: intros H1 H2; compare_cases; try reflexivity; try discriminate;
    subst; try lia.
Qed.

Lemma eqb_refl (a : float) : F32.is_nan a = false -> F32.eqb a a = true.
Proof.
  unfold F32.eqb, SFeqb.
  destruct a as [s|s| |s m e]; intros Ha; try discriminate Ha; cbn;
    try reflexivity; destruct s; try reflexivity;
    rewrite Z.compare_refl;
    change (Pos.compare_cont Eq m m) with (Pos.compare m m);
    rewrite Pos.compare_refl; reflexivity.
Qed.

(** ** TFEditor::eval: the envelope *)

Lemma fmaxf_nan (a b : float) :
  F32.is_nan a = false -> F32.is_nan (F32.fmaxf a b) = false.
Proof.
  unfold F32.fmaxf. intros Ha. rewrite Ha.
  destruct (F32.is_nan b) eqn:Hb; [exact Ha|].
  destruct (F32.ltb a b); assumption.
Qed.

Lemma fmaxf_cases (a b : float) :
  F32.is_nan a = false ->
  (F32.fmaxf a b = a \/ F32.fmaxf a b = b)
  /\ F32.ltb (F32.fmaxf a b) a = false
  /\ F32.ltb (F32.fmaxf a b) b = false.
Proof.
  unfold F32.fmaxf. intros Ha. rewrite Ha.
  destruct (F32.is_nan b) eqn:Hb.
  - destruct b; try discriminate Hb.
    split; [left; reflexivity|]. split; [apply ltb_irrefl|].
    unfold F32.ltb, SFltb. destruct a; reflexivity.
  - destruct (F32.ltb a b) eqn:Hlt.
    + split; [right; reflexivity|]. split; [apply ltb_asym; exact Hlt|].
      apply ltb_irrefl.
    + split; [left; reflexivity|]. split; [apply ltb_irrefl | exact Hlt].
Qed.

Lemma envelope_fold (x : float) (fs : list FunctionSP) :
  forall r0, F32.is_nan r0 = false ->
    let r := fold_left
               (fun res f => F32.fmaxf res (Function_eval (sp_obj f) x))
               fs r0 in
    F32.is_nan r = false
    /\ (r = r0 \/ exists f, In f fs /\ r = Function_eval (sp_obj f) x)
    /\ F32.ltb r r0 = false
    /\ forall f, In f fs -> F32.ltb r (Function_eval (sp_obj f) x) = false.
Proof.
  induction fs as [|f fs IH]; intros r0 Hr0; cbn [fold_left].
  - split; [exact Hr0|]. split; [left; reflexivity|].
    split; [apply ltb_irrefl|]. intros f [].
  - set (y := Function_eval (sp_obj f) x).
    pose proof (fmaxf_nan r0 y Hr0) as Hr1.
    destruct (fmaxf_cases r0 y Hr0) as (Hcase & Hge0 & Hgey).
    destruct (IH (F32.fmaxf r0 y) Hr1) as (Hnan & Hatt & Hge1 & Hub).
    split; [exact Hnan|]. split; [|split].
    + destruct Hatt as [Heq | (g & Hg & Heq)].
      * destruct Hcase as [Hc | Hc].
        -- left. rewrite Heq. exact Hc.
        -- right. exists f. split; [left; reflexivity|].
           rewrite Heq. exact Hc.
      * right. exists g. split; [right; exact Hg | exact Heq].
    + apply (ltb_negative_transitive _ (F32.fmaxf r0 y));
        [exact Hr1 | exact Hge1 | exact Hge0].
    + intros g [<- | Hg].
      * apply (ltb_negative_transitive _ (F32.fmaxf r0 y));
          [exact Hr1 | exact Hge1 | exact Hgey].
      * apply Hub. exact Hg.
Qed.

Lemma TFEditor_eval_max_with_zero (ed : TFEditor) (x : float) :
  envelope_is_max_with_zero ed x.
Proof.
  unfold envelope_is_max_with_zero, TFEditor_eval.
  destruct (envelope_fold x (functions ed) F32.zero eq_refl)
    as (Hnan & Hatt & Hge & Hub).
  split; [exact Hatt|]. split; [exact Hnan|]. split; [exact Hge|].
  split; [exact Hub|].
  intros ->. reflexivity.
Qed.

(** ** TFEditor::rasterize: the outline *)

Section Outline.
Variable ed : TFEditor.
Variables w h : Z.
Hypothesis Hw : is_unsigned w.
Hypothesis Hh : is_unsigned h.

Lemma outline_column (tex0 tex : Texture) (x : Z) :
  0 <= x < w -> outline_fits ed w h ->
  outlined_upto ed w h tex0 x tex ->
  exists tex',
    (let xf := column_position w x in
     let yf := TFEditor_eval ed xf in
     if F32.ltb F32.zero yf then
       y <- F32.to_unsigned (F32.mul yf (F32.of_Z h)) ;;
       c <- cvt_uint32_rgba outline_color ;;
       Texture_set tex x y c
     else Ok tex) = Ok tex'
    /\ outlined_upto ed w h tex0 (x + 1) tex'.
Proof.
  intros Hx Hfit [Hwf Hinv]. cbn zeta.
  specialize (Hfit x Hx). cbn zeta in Hfit.
  destruct (F32.ltb F32.zero (TFEditor_eval ed (column_position w x)))
    eqn:Hpos.
  - destruct (Hfit eq_refl) as (r & Hr & Hrh).
    pose proof (to_unsigned_range _ _ Hr) as Hr0. unfold is_unsigned in Hr0.
    rewrite Hr, outline_pixel_eq. cbn [bind].
    destruct (Texture_get_set tex w h x r outline_pixel 0 0 Hwf Hw Hh)
      as (t' & Hset & Hwf' & _); [lia..|].
    exists t'. split; [exact Hset|]. split; [exact Hwf'|].
    intros x' y' Hx' Hy'.
    destruct (Texture_get_set tex w h x r outline_pixel x' y' Hwf Hw Hh)
      as (t'' & Hset' & _ & Hget); [lia..|].
    rewrite Hset in Hset'. injection Hset' as <-.
    rewrite Hget, (Hinv x' y' Hx' Hy').
    destruct (Z.eqb_spec x' x) as [->|Hne]; cbn [andb].
    + unfold plotted at 2. rewrite Hpos, Hr. cbn [andb].
      destruct (Z.ltb_spec x x); [lia|].
      destruct (Z.ltb_spec x (x + 1)); [|lia]. cbn [andb].
      destruct (y' =? r); reflexivity.
    + destruct (Z.ltb_spec x' x); destruct (Z.ltb_spec x' (x + 1));
        try lia; reflexivity.
  - exists tex. split; [reflexivity|]. split; [exact Hwf|].
    intros x' y' Hx' Hy'. rewrite (Hinv x' y' Hx' Hy').
    destruct (Z.eqb_spec x' x) as [->|Hne].
    + unfold plotted. rewrite Hpos. cbn [andb].
      rewrite !andb_false_r. reflexivity.
    + destruct (Z.ltb_spec x' x); destruct (Z.ltb_spec x' (x + 1));
        try lia; reflexivity.
Qed.

Lemma TFEditor_outline_plots (tex0 : Texture) :
  wf_texture tex0 w h -> showOutline ed = true -> outline_fits ed w h ->
  exists tex', TFEditor_outline ed w h tex0 = Ok tex'
               /\ outlined_upto ed w h tex0 w tex'.
Proof.
  intros Hwf Hshow Hfit. unfold TFEditor_outline. rewrite Hshow.
  apply (for_range_total _ (fun x tex => outlined_upto ed w h tex0 x tex)).
  - unfold is_unsigned in Hw. lia.
  - split; [exact Hwf|]. intros x' y' Hx' Hy'.
    destruct (Z.ltb_spec x' 0); [lia | reflexivity].
  - intros x t Hx Hinv. apply outline_column; assumption.
Qed.

(** The outline pixel of a column whose envelope is 1 is at row
    [height]; writing it fails, and so does the outline loop. *)
Lemma TFEditor_outline_row_height (tex : Texture) (x : Z) :
  wf_texture tex w h -> showOutline ed = true -> 0 <= x < w ->
  TFEditor_eval ed (column_position w x) = F32.one ->
  F32.to_unsigned (F32.mul F32.one (F32.of_Z h)) = Ok h ->
  is_ok (TFEditor_outline ed w h tex) = false.
Proof.
  intros Hwf Hshow Hx Hone Hrow. unfold TFEditor_outline. rewrite Hshow.
  apply (for_range_fails _ (fun t => wf_texture t w h) x);
    [| |exact Hwf|exact Hx].
  - intros i t t' Ht. cbn zeta.
    destruct (F32.ltb _ _); [|intros [= <-]; exact Ht].
    destruct (F32.to_unsigned
                (F32.mul (TFEditor_eval ed (column_position w i)) _))
      as [y|e]; [|discriminate].
    cbn [bind]. rewrite outline_pixel_eq. cbn [bind].
    apply Texture_set_wf. exact Ht.
  - intros t Ht. cbn zeta. rewrite Hone.
    change (F32.ltb F32.zero F32.one) with true. cbn iota.
    rewrite Hrow, outline_pixel_eq. cbn [bind].
    destruct (Texture_set_row_height t w h x outline_pixel Ht Hw Hh Hx)
      as (_ & _ & ->). reflexivity.
Qed.
End Outline.

(** C7, as amended: [TFEditor::eval] returns the greatest of 0 and the
    values of the registered functions at [x] (0 without functions; NaN
    values are ignored); and with the outline enabled, when the row
    [yf * height] of every column with a positive envelope is defined and
    inside the image, [rasterize] plots the opaque orange pixel
    (1, 0.5, 0, 1) at that row of each such column, on top of the
    composited image, and leaves every other pixel of it unchanged. *)
Theorem envelope_and_outline (ed : TFEditor) (w h : Z) :
  (forall x, envelope_is_max_with_zero ed x)
  /\ (is_unsigned w -> is_unsigned h -> showOutline ed = true ->
      outline_fits ed w h -> outline_plots ed w h).
Proof.
  split; [intros x; apply TFEditor_eval_max_with_zero|].
  intros Hw Hh Hshow Hfit tex Hcomp.
  pose proof (TFEditor_composite_wf ed w h tex Hw Hh Hcomp) as Hwf.
  destruct (TFEditor_outline_plots ed w h Hw Hh tex Hwf Hshow Hfit)
    as (tex' & Hout & Hwf' & Hpix).
  exists tex'. unfold TFEditor_rasterize. rewrite Hcomp. cbn [bind].
  split; [exact Hout|]. split; [exact Hwf'|].
  intros x y Hx Hy. rewrite (Hpix x y Hx Hy).
  destruct (Z.ltb_spec x w); [reflexivity | lia].
Qed.

(** C7, as stated, fails: the only function of [negative_editor] has the
    value -1 at 0.5 and [eval] returns 0 there, which is no function's
    value; and for the bundled example the outline is not plotted, the
    call fails on the write to row [height]. *)
Lemma envelope_and_outline_counterexample :
  ~ envelope_is_max negative_editor F32.half
  /\ (showOutline example_editor = true
      /\ ~ outline_plots example_editor 8 4).
Proof.
  split; [|split; [reflexivity|]].
  - intros [_ Hmax].
    destruct Hmax as [(f & Hin & Heq) _]; [discriminate|].
    destruct Hin as [<- | []].
    vm_compute in Heq. discriminate Heq.
  - intros Hplots.
    assert (Hc : exists tex, TFEditor_composite example_editor 8 4 = Ok tex).
    { vm_compute. eexists. reflexivity. }
    destruct Hc as (tex & Hc).
    destruct (Hplots tex Hc) as (tex' & Hr & _).
    vm_compute in Hr. discriminate Hr.
Qed.

Lemma envelope_and_outline_witness :
  (forall x, envelope_is_max_with_zero tent_editor x)
  /\ outline_plots tent_editor 4 4.
Proof.
  destruct (envelope_and_outline tent_editor 4 4) as [Henv Hout].
  split; [exact Henv|].
  apply Hout.
  - unfold is_unsigned. lia.
  - unfold is_unsigned. lia.
  - reflexivity.
  - intros x Hx.
    assert (Hc : x = 0 \/ x = 1 \/ x = 2 \/ x = 3) by lia.
    destruct Hc as [-> | [-> | [-> | ->]]]; vm_compute;
      intros Hpos; try discriminate Hpos;
      eexists; (split; [reflexivity | reflexivity]).
Defined.

(** C4: there is a reachable editor state and an output size for which the
    outline step of [TFEditor::rasterize] writes outside the image.
    Whenever the envelope is 1 at a sampled column, the row [yf * height]
    is [height]; [Texture::set] flips it to [height - height - 1], which
    wraps around to [2^32 - 1], and the index is past the end of the pixel
    vector, so the checked access fails and no pixel is stored.  The
    bundled example is such a state: its piecewise-linear curve is 1 at
    [x = 0]. *)
Theorem outline_writes_outside_image :
  (forall ed w h tex x,
      is_unsigned w -> is_unsigned h -> wf_texture tex w h ->
      showOutline ed = true -> 0 <= x < w ->
      TFEditor_eval ed (column_position w x) = F32.one ->
      F32.to_unsigned (F32.mul F32.one (F32.of_Z h)) = Ok h ->
      flip tex h = 2 ^ 32 - 1
      /\ Z.of_nat (length (data tex)) <= linearIndex tex x (flip tex h)
      /\ Texture_set tex x h outline_pixel = Err OutOfBounds
      /\ is_ok (TFEditor_outline ed w h tex) = false)
  /\ (Function_eval (FPiecewiseLinear example_pl) F32.zero = F32.one
      /\ TFEditor_eval example_editor (column_position 256 0) = F32.one
      /\ F32.to_unsigned (F32.mul F32.one (F32.of_Z 128)) = Ok 128
      /\ is_ok (TFEditor_rasterize example_editor 256 128) = false)
  /\ (exists tex,
        TFEditor_composite example_editor 8 4 = Ok tex
        /\ TFEditor_outline example_editor 8 4 tex = Err OutOfBounds
        /\ TFEditor_rasterize example_editor 8 4 = Err OutOfBounds).
Proof.
  split; [|split].
  - intros ed w h tex x Hw Hh Hwf Hshow Hx Hone Hrow.
    destruct (Texture_set_row_height tex w h x outline_pixel Hwf Hw Hh Hx)
      as (Hflip & Hidx & Hset).
    repeat split; try assumption.
    apply (TFEditor_outline_row_height ed w h Hw Hh tex x); assumption.
  - assert (Hone : TFEditor_eval example_editor (column_position 256 0)
                   = F32.one) by (vm_compute; reflexivity).
    assert (Hrow : F32.to_unsigned (F32.mul F32.one (F32.of_Z 128)) = Ok 128)
      by (vm_compute; reflexivity).
    split; [vm_compute; reflexivity|].
    split; [exact Hone|]. split; [exact Hrow|].
    unfold TFEditor_rasterize.
    destruct (TFEditor_composite example_editor 256 128) as [tex|e] eqn:Hc;
      [|reflexivity].
    cbn [bind].
    assert (Hw : is_unsigned 256) by (unfold is_unsigned; lia).
    assert (Hh : is_unsigned 128) by (unfold is_unsigned; lia).
    apply (TFEditor_outline_row_height example_editor 256 128 Hw Hh tex 0);
      [|reflexivity|lia|exact Hone|exact Hrow].
    apply (TFEditor_composite_wf example_editor); assumption.
  - assert (Hr : TFEditor_rasterize example_editor 8 4 = Err OutOfBounds)
      by (vm_compute; reflexivity).
    destruct (TFEditor_composite example_editor 8 4) as [tex|e] eqn:Hc;
      [|vm_compute in Hc; discriminate Hc].
    exists tex. split; [reflexivity|]. split; [|exact Hr].
    unfold TFEditor_rasterize in Hr. rewrite Hc in Hr. exact Hr.
Qed.

Lemma outline_writes_outside_image_witness :
  Texture_set (Texture_new 256 128) 0 128 outline_pixel = Err OutOfBounds.
Proof.
  destruct outline_writes_outside_image as [Hgen _].
  apply (Hgen example_editor 256 128 (Texture_new 256 128) 0).
  - unfold is_unsigned. lia.
  - unfold is_unsigned. lia.
  - apply Texture_new_wf; unfold is_unsigned; lia.
  - reflexivity.
  - lia.
  - vm_compute. reflexivity.
  - vm_compute. reflexivity.
Defined.

(** ** PiecewiseLinear *)

Lemma eval_segments_find (x : float) (cps : list vec2f) :
  F32.is_nan x = false ->
  Forall (fun p => F32.is_nan (v2x p) = false) cps ->
  eval_segments cps x
  = match List.find (covers x) (consecutive_pairs cps) with
    | Some (p1, p2) => interpolate p1 p2 x
    | None => F32.zero
    end.
Proof.
  intros Hx. induction cps as [|p1 cps IH]; intros Hall; [reflexivity|].
  destruct cps as [|p2 rest]; [reflexivity|].
  inversion Hall as [|? ? Hp1 Hrest]; subst.
  inversion Hrest as [|? ? Hp2 _]; subst.
  change (consecutive_pairs (p1 :: p2 :: rest))
    with ((p1, p2) :: consecutive_pairs (p2 :: rest)).
  cbn [eval_segments List.find]. unfold covers at 1. cbn [fst snd].
  rewrite (ltb_negb_leb x (v2x p1) Hx Hp1).
  rewrite (ltb_negb_leb (v2x p2) x Hp2 Hx).
  rewrite <- negb_andb.
  destruct (F32.leb (v2x p1) x && F32.leb x (v2x p2)); cbn [negb].
  - reflexivity.
  - apply IH. exact Hrest.
Qed.

Lemma insert_by_x_HdRel (a p : vec2f) (l : list vec2f) :
  HdRel (fun p q => F32.ltb (v2x q) (v2x p) = false) a l ->
  F32.ltb (v2x p) (v2x a) = false ->
  HdRel (fun p q => F32.ltb (v2x q) (v2x p) = false) a (insert_by_x p l).
Proof.
  intros Hhd Hap. destruct l as [|q l]; cbn [insert_by_x].
  - constructor. exact Hap.
  - destruct (F32.ltb (v2x p) (v2x q)).
    + constructor. exact Hap.
    + constructor. inversion Hhd; assumption.
Qed.

Lemma insert_by_x_sorted (p : vec2f) (l : list vec2f) :
  ascending_x l -> ascending_x (insert_by_x p l).
Proof.
  unfold ascending_x. induction l as [|q l IH]; intros Hs; cbn [insert_by_x].
  - repeat constructor.
  - inversion Hs as [|? ? Hl Hhd]; subst.
    destruct (F32.ltb (v2x p) (v2x q)) eqn:Hlt.
    + constructor; [exact Hs|]. constructor. apply ltb_asym. exact Hlt.
    + constructor; [apply IH; exact Hl|].
      apply insert_by_x_HdRel; assumption.
Qed.

Lemma insert_by_x_perm (p : vec2f) (l : list vec2f) :
  Permutation (p :: l) (insert_by_x p l).
Proof.
  induction l as [|q l IH]; cbn [insert_by_x]; [reflexivity|].
  destruct (F32.ltb (v2x p) (v2x q)); [reflexivity|].
  etransitivity; [apply perm_swap|]. apply perm_skip. exact IH.
Qed.

Lemma sort_by_x_sorted (l : list vec2f) : ascending_x (sort_by_x l).
Proof.
  unfold sort_by_x.
  assert (Hgen : forall sorted, ascending_x sorted ->
            ascending_x (fold_left (fun sorted p => insert_by_x p sorted)
                                   l sorted)).
  { induction l as [|p l IH]; intros sorted Hs; cbn [fold_left].
    - exact Hs.
    - apply IH. apply insert_by_x_sorted. exact Hs. }
  apply Hgen. constructor.
Qed.

Lemma sort_by_x_perm (l : list vec2f) : Permutation l (sort_by_x l).
Proof.
  unfold sort_by_x.
  assert (Hgen : forall sorted,
            Permutation (sorted ++ l)
              (fold_left (fun sorted p => insert_by_x p sorted) l sorted)).
  { induction l as [|p l IH]; intros sorted; cbn [fold_left].
    - rewrite app_nil_r. reflexivity.
    - etransitivity; [|apply IH].
      etransitivity; [symmetry; apply Permutation_middle|].
      apply (Permutation_app_tail l (insert_by_x_perm p sorted)). }
  apply (Hgen []).
Qed.

(** C2, as amended: for every curve and input [x] such that [x], the
    bounds of [valueRange] and the control points' [x] are numbers (not
    NaN), [eval(x)] is 0 if the curve has fewer than 2 control points or
    [x] lies outside [valueRange]; otherwise it is the linear
    interpolation [p1.y + (p2.y - p1.y)/(p2.x - p1.x) * (x - p1.x)] on
    the first consecutive pair with [p1.x <= x <= p2.x], and 0 if no pair
    covers [x].  The control points of a constructed curve are the given
    ones in ascending [x] order. *)
Theorem PiecewiseLinear_eval_interpolates :
  (forall pl x,
      numeric_curve pl -> F32.is_nan x = false ->
      PiecewiseLinear_eval pl x = eval_spec pl x)
  /\ (forall CPs,
        ascending_x (controlPoints (PiecewiseLinear_make CPs))
        /\ Permutation CPs (controlPoints (PiecewiseLinear_make CPs))).
Proof.
  split.
  - intros pl x (Hlo & Hhi & Hcps) Hx.
    unfold PiecewiseLinear_eval, eval_spec, in_valueRange.
    rewrite (ltb_negb_leb x _ Hx Hlo), (ltb_negb_leb _ x Hhi Hx).
    rewrite negb_andb, orb_assoc.
    destruct (_ || _ || _); [reflexivity|].
    apply eval_segments_find; assumption.
  - intros CPs. cbn [PiecewiseLinear_make controlPoints].
    split; [apply sort_by_x_sorted | apply sort_by_x_perm].
Qed.

(** C2, as stated, fails for the input NaN, which [Function::rasterize]
    passes at width 1 (the position is 0/0): NaN is in no interval, yet
    the curve of the bundled example evaluates to NaN there, not to 0.
    It fails likewise at 0.5 for a curve whose range has a NaN bound or
    whose first control point has a NaN [x]. *)
Lemma PiecewiseLinear_eval_interpolates_counterexample :
  (column_position 1 0 = F32.nan
   /\ PiecewiseLinear_eval example_pl F32.nan = F32.nan
   /\ eval_spec example_pl F32.nan = F32.zero
   /\ PiecewiseLinear_eval example_pl F32.nan <> eval_spec example_pl F32.nan)
  /\ (PiecewiseLinear_eval nan_range_curve F32.half = F32.one
      /\ eval_spec nan_range_curve F32.half = F32.zero)
  /\ (PiecewiseLinear_eval nan_point_curve F32.half = F32.nan
      /\ eval_spec nan_point_curve F32.half = F32.zero).
Proof.
  repeat split; try (vm_compute; reflexivity).
  vm_compute. discriminate.
Qed.

Lemma PiecewiseLinear_eval_interpolates_witness :
  PiecewiseLinear_eval example_pl F32.half = eval_spec example_pl F32.half.
Proof.
  destruct PiecewiseLinear_eval_interpolates as [Heval _].
  apply Heval.
  - unfold numeric_curve. vm_compute. repeat constructor.
  - reflexivity.
Defined.

(** ** The compositing operator *)

Lemma digits2_pos_double (p : positive) :
  Z.pos (digits2_pos p~0) = Z.pos (digits2_pos p) + 1.
Proof. change (digits2_pos p~0) with (Pos.succ (digits2_pos p)). lia. Qed.

Lemma digits2_pos_shift (m : positive) :
  Z.pos (digits2_pos (8388608 * m)) = Z.pos (digits2_pos m) + 23.
Proof.
  change (8388608 * m)%positive
    with (m~0~0~0~0~0~0~0~0~0~0~0~0~0~0~0~0~0~0~0~0~0~0~0)%positive.
  rewrite !digits2_pos_double. lia.
Qed.

(** Multiplying a binary32 value by 1 is exact. *)
Lemma mul_one_l (d : float) :
  F32.valid d = true -> F32.mul F32.one d = d.
Proof.
  unfold F32.valid, F32.mul.
  destruct d as [s|s| |s m e]; cbn [valid_binary]; intros Hv;
    try reflexivity.
  unfold F32.one, SFmul. cbn [xorb].
  unfold bounded, canonical_mantissa in Hv.
  apply andb_prop in Hv. destruct Hv as [Hc He].
  apply Z.eqb_eq in Hc. apply Z.leb_le in He.
  unfold binary_round_aux, shr_fexp.
  cbn [Zdigits2]. rewrite digits2_pos_shift.
  replace (Z.pos (digits2_pos m) + 23 + (-23 + e))
    with (Z.pos (digits2_pos m) + e) by lia.
  rewrite Hc.
  replace (e - (-23 + e)) with 23 by lia.
  cbn [shr shr_record_of_loc].
  change (SpecFloat.iter_pos shr_1 23
            {| shr_m := Z.pos (8388608 * m); shr_r := false; shr_s := false |})
    with {| shr_m := Z.pos m; shr_r := false; shr_s := false |}.
  cbn [shr_m loc_of_shr_record round_nearest_even Zdigits2].
  replace (-23 + e + 23) with e by lia.
  rewrite Hc, Z.sub_diag. cbn [shr shr_record_of_loc shr_m].
  destruct (Z.leb_spec e (F32.emax - F32.prec)); [reflexivity | lia].
Qed.

Lemma eqb_zero (a : float) :
  F32.eqb a F32.zero = true -> exists s, a = S754_zero s.
Proof.
  unfold F32.eqb, SFeqb.
  destruct a as [s|[|]| |[|] m e]; cbn; try discriminate. eauto.
Qed.

(** Adding a zero to a number gives a float equal to it. *)
Lemma add_zero_l (s : bool) (d : float) :
  F32.is_nan d = false -> F32.eqb (F32.add (S754_zero s) d) d = true.
Proof.
  intros Hd. destruct d as [s'|s'| |s' m e]; try discriminate Hd.
  - destruct s, s'; reflexivity.
  - apply eqb_refl. reflexivity.
  - apply eqb_refl. reflexivity.
Qed.

(** C5, as amended: for colours [src] and [dst] (binary32 values) with
    [src.alpha == 0], [over(src, dst) = src + (1 - src.alpha) * dst] is
    [src + dst] per channel; it is [== dst] when the colour channels of
    [src] are 0 as well (a transparent [src] in premultiplied form) and
    the channels of [dst] are numbers. *)
Theorem over_transparent_src (src dst : vec4f) :
  vec4f_valid dst ->
  F32.eqb (v4w src) F32.zero = true ->
  over src dst = vec4f_add src dst
  /\ (vec4f_numeric dst ->
      F32.eqb (v4x src) F32.zero = true ->
      F32.eqb (v4y src) F32.zero = true ->
      F32.eqb (v4z src) F32.zero = true ->
      vec4f_eqb (over src dst) dst = true).
Proof.
  intros (Vx & Vy & Vz & Vw) Hw.
  destruct (eqb_zero _ Hw) as [sw Hsw].
  assert (Hover : over src dst = vec4f_add src dst).
  { unfold over, vec4f_scale. rewrite Hsw.
    change (F32.sub F32.one (S754_zero sw)) with F32.one.
    rewrite !mul_one_l by assumption.
    destruct dst; reflexivity. }
  split; [exact Hover|].
  intros (Nx & Ny & Nz & Nw) Hx Hy Hz. rewrite Hover.
  destruct (eqb_zero _ Hx) as [sx Hsx]. destruct (eqb_zero _ Hy) as [sy Hsy].
  destruct (eqb_zero _ Hz) as [sz Hsz].
  unfold vec4f_eqb, vec4f_add. cbn [v4x v4y v4z v4w].
  rewrite Hsx, Hsy, Hsz, Hsw.
  rewrite !add_zero_l by assumption. reflexivity.
Qed.

(** C5, as stated, fails: [src = (0.5, 0, 0, 0)] has alpha 0, and over the
    transparent black [dst] it gives [(0.5, 0, 0, 0)], not [dst]; and a
    [dst] with a NaN channel is not [==] to anything, the result
    included. *)
Lemma over_transparent_src_counterexample :
  (let src := mk_vec4f F32.half F32.zero F32.zero F32.zero in
   let dst := mk_vec4f F32.zero F32.zero F32.zero F32.zero in
   F32.eqb (v4w src) F32.zero = true
   /\ over src dst = src
   /\ vec4f_eqb (over src dst) dst = false)
  /\ (let src := mk_vec4f F32.zero F32.zero F32.zero F32.zero in
      let dst := mk_vec4f F32.nan F32.zero F32.zero F32.one in
      F32.eqb (v4w src) F32.zero = true
      /\ vec4f_eqb (over src dst) dst = false).
Proof. vm_compute. repeat split. Qed.

Lemma over_transparent_src_witness :
  let src := mk_vec4f F32.zero F32.zero F32.zero F32.zero in
  let dst := mk_vec4f F32.half (F32.literal 8 10) F32.zero F32.one in
  over src dst = vec4f_add src dst /\ vec4f_eqb (over src dst) dst = true.
Proof.
  intros src dst.
  destruct (over_transparent_src src dst) as [Hsum Heq].
  - repeat split; vm_compute; reflexivity.
  - reflexivity.
  - split; [exact Hsum|].
    apply Heq; try reflexivity. repeat split; vm_compute; reflexivity.
Defined.

(** ** The colour codec *)

(** C9: for every byte value [b] in [0,255], converting to float by
    dividing by 255 and packing back by clamping to [0,1], scaling by 255
    and truncating recovers [b]. *)
Theorem byte_roundtrip (b : Z) :
  0 <= b <= 255 -> cvt_uint32 (cvt_float32 b) = Ok b.
Proof.
  intros Hb.
  assert (Hall : forallb
            (fun n => match cvt_uint32 (cvt_float32 (Z.of_nat n)) with
                      | Ok r => r =? Z.of_nat n
                      | Err _ => false
                      end) (List.seq 0 256) = true)
    by (vm_compute; reflexivity).
  rewrite forallb_forall in Hall.
  specialize (Hall (Z.to_nat b)).
  rewrite Z2Nat.id in Hall by lia.
  destruct (cvt_uint32 (cvt_float32 b)) as [r|e].
  - f_equal. apply Z.eqb_eq. apply Hall. apply in_seq. lia.
  - discriminate Hall. apply in_seq. lia.
Qed.

Lemma byte_roundtrip_witness : cvt_uint32 (cvt_float32 200) = Ok 200.
Proof. apply byte_roundtrip. lia. Defined.

(** ** Tent *)

(** C10: a default-constructed tent (tip (0.5, 1), top width 0, bottom
    width 1) expands into the control points
    [(tipX - bottomWidth/2, 0)], [(tipX - topWidth/2, tipY)],
    [(tipX + topWidth/2, tipY)], [(tipX + bottomWidth/2, 0)] of an
    internal piecewise-linear curve to which [eval] delegates; it
    evaluates to 0 at 0 and at 1 and to 1 at 0.5, although the two top
    control points coincide. *)
Theorem Tent_default_shape :
  let t := Tent_default in
  let tipX := v2x (tipPos t) in
  let tipY := v2y (tipPos t) in
  (tipPos t = mk_vec2f F32.half F32.one
   /\ topWidth t = F32.zero /\ bottomWidth t = F32.one)
  /\ controlPoints (internal t)
     = [ mk_vec2f (F32.sub tipX (F32.div (bottomWidth t) F32.two)) F32.zero;
         mk_vec2f (F32.sub tipX (F32.div (topWidth t) F32.two)) tipY;
         mk_vec2f (F32.add tipX (F32.div (topWidth t) F32.two)) tipY;
         mk_vec2f (F32.add tipX (F32.div (bottomWidth t) F32.two)) F32.zero ]
  /\ controlPoints (internal t)
     = [ mk_vec2f F32.zero F32.zero; mk_vec2f F32.half F32.one;
         mk_vec2f F32.half F32.one; mk_vec2f F32.one F32.zero ]
  /\ (forall x, Tent_eval t x = PiecewiseLinear_eval (internal t) x)
  /\ Tent_eval t F32.zero = F32.zero
  /\ Tent_eval t F32.one = F32.zero
  /\ Tent_eval t F32.half = F32.one.
Proof.
  cbn zeta. repeat split; vm_compute; reflexivity.
Qed.

(** ** Hit-testing *)

(** The loop that has [n] functions left returns the last of the first
    [n] functions that contains the point. *)
Lemma select_from_find (fs : list FunctionSP) (pos : vec2f) (n : nat) :
  (n <= length fs)%nat ->
  select_from fs pos n = List.find (contains pos) (rev (take n fs)).
Proof.
  induction n as [|n IH]; intros Hn; [reflexivity|].
  cbn [select_from].
  destruct (lookup_lt_is_Some_2 fs n ltac:(lia)) as [f Hf].
  rewrite Hf, (take_S_r fs n f Hf), rev_unit. cbn [List.find].
  fold (contains pos f).
  destruct (contains pos f); [reflexivity|]. apply IH. lia.
Qed.

Lemma find_rev_last (pos : vec2f) (fs : list FunctionSP) :
  match List.find (contains pos) (rev fs) with
  | Some f =>
      exists i : nat, fs !! i = Some f /\ contains pos f = true
        /\ forall (j : nat) g, (i < j)%nat -> fs !! j = Some g ->
                               contains pos g = false
  | None => forall (j : nat) g, fs !! j = Some g -> contains pos g = false
  end.
Proof.
  induction fs as [|f fs IH] using rev_ind; [intros j g [=]|].
  rewrite rev_unit. cbn [List.find].
  destruct (contains pos f) eqn:Hf.
  - exists (length fs). split; [apply list_lookup_middle; reflexivity|].
    split; [exact Hf|]. intros j g Hj Hg.
    apply lookup_lt_Some in Hg. rewrite length_app in Hg. cbn in Hg. lia.
  - destruct (List.find (contains pos) (rev fs)) as [f0|].
    + destruct IH as (i & Hi & Hc & Habove).
      exists i. split; [apply lookup_app_l_Some; exact Hi|].
      split; [exact Hc|]. intros j g Hj Hg.
      destruct (lookup_app_Some fs [f] j g) as [Hcases _].
      destruct (Hcases Hg) as [Hl | [_ Hr]].
      * eapply Habove; eassumption.
      * destruct (j - length fs)%nat; [|discriminate Hr].
        injection Hr as <-. exact Hf.
    + intros j g Hg.
      destruct (lookup_app_Some fs [f] j g) as [Hcases _].
      destruct (Hcases Hg) as [Hl | [_ Hr]].
      * eapply IH; eassumption.
      * destruct (j - length fs)%nat; [|discriminate Hr].
        injection Hr as <-. exact Hf.
Qed.

(** C6: [select(pos)] goes through the function list from the last-added
    function to the first and returns the first one whose [eval(pos.x)]
    is strictly greater than [pos.y]; it returns none if no registered
    function contains the point; a function that contains the point and
    was added last is the one returned, whatever the functions under it. *)
Theorem select_topmost (ed : TFEditor) (pos : vec2f) :
  select ed pos = List.find (contains pos) (rev (functions ed))
  /\ (forall f, select ed pos = Some f ->
        exists i : nat, functions ed !! i = Some f /\ contains pos f = true
          /\ forall (j : nat) g, (i < j)%nat -> functions ed !! j = Some g ->
                                 contains pos g = false)
  /\ (select ed pos = None <->
      forall f, In f (functions ed) -> contains pos f = false)
  /\ (forall g, contains pos g = true ->
        select (addFunction g ed) pos = Some g).
Proof.
  assert (Hfind : forall ed', select ed' pos
                    = List.find (contains pos) (rev (functions ed'))).
  { intros ed'. unfold select.
    rewrite select_from_find by lia. rewrite firstn_all. reflexivity. }
  split; [apply Hfind|]. split; [|split].
  - intros f Hsel. rewrite Hfind in Hsel.
    pose proof (find_rev_last pos (functions ed)) as Hlast.
    rewrite Hsel in Hlast. exact Hlast.
  - rewrite Hfind. split.
    + intros Hnone f Hin.
      apply (find_none _ _ Hnone). apply in_rev in Hin. exact Hin.
    + intros Hall.
      destruct (List.find (contains pos) (rev (functions ed))) as [f|] eqn:Hf;
        [|reflexivity].
      apply find_some in Hf. destruct Hf as [Hin Hc].
      apply in_rev in Hin. rewrite (Hall f Hin) in Hc. discriminate Hc.
  - intros g Hg. rewrite Hfind. cbn [addFunction functions].
    rewrite rev_unit. cbn [List.find]. rewrite Hg. reflexivity.
Qed.

Lemma select_topmost_witness :
  select two_tents (mk_vec2f F32.half F32.half) = Some tent_b.
Proof.
  destruct (select_topmost (addFunction tent_a TFEditor_new)
              (mk_vec2f F32.half F32.half)) as (_ & _ & _ & Hlast).
  apply (Hlast tent_b). vm_compute. reflexivity.
Defined.

(** ** moveToTop *)

(** C3 does not hold of the code: [moveToTop] leaves the function list
    as it is.  With two tents added in the order [tent_a], [tent_b],
    [moveToTop(tent_a)] keeps [tent_b] last and [select] still returns
    [tent_b] where both contain the point, whereas the described
    behaviour puts [tent_a] last. *)
Theorem moveToTop_leaves_order :
  (forall f ed, moveToTop f ed = ed)
  /\ functions (moveToTop tent_a two_tents) = [tent_a; tent_b]
  /\ functions (moveToTop_spec tent_a two_tents) = [tent_b; tent_a]
  /\ select (moveToTop tent_a two_tents) (mk_vec2f F32.half F32.half)
     = Some tent_b
  /\ select (moveToTop_spec tent_a two_tents) (mk_vec2f F32.half F32.half)
     = Some tent_a.
Proof.
  split; [reflexivity|]. repeat split; vm_compute; reflexivity.
Qed.

(** * Further properties *)

(** ** The image buffer *)

(** X1: a freshly constructed image has the requested dimensions and
    [width * height] pixels, and every pixel inside it reads 0. *)
Theorem Texture_new_zero (w h x y : Z) :
  is_unsigned w -> is_unsigned h -> 0 <= x < w -> 0 <= y < h ->
  wf_texture (Texture_new w h) w h
  /\ Texture_get (Texture_new w h) x y = Ok 0.
Proof.
  intros Hw Hh Hx Hy. split.
  - apply Texture_new_wf; assumption.
  - apply Texture_get_new; assumption.
Qed.

Lemma Texture_new_zero_witness :
  wf_texture (Texture_new 3 2) 3 2
  /\ Texture_get (Texture_new 3 2) 2 1 = Ok 0.
Proof. apply Texture_new_zero; unfold is_unsigned; lia. Defined.

(** X2: inside the image, [set] succeeds and keeps the dimensions; a
    [get] of the written pixel returns the value, and every other pixel
    reads as before. *)
Theorem Texture_set_then_get (t : Texture) (w h x y v : Z) :
  wf_texture t w h -> is_unsigned w -> is_unsigned h ->
  0 <= x < w -> 0 <= y < h ->
  exists t',
    Texture_set t x y v = Ok t' /\ wf_texture t' w h
    /\ Texture_get t' x y = Ok v
    /\ forall x' y', 0 <= x' < w -> 0 <= y' < h ->
         (x', y') <> (x, y) -> Texture_get t' x' y' = Texture_get t x' y'.
Proof.
  intros Hwf Hw Hh Hx Hy.
  destruct (Texture_get_set t w h x y v x y Hwf Hw Hh Hx Hy Hx Hy)
    as (t' & Hset & Hwf' & Hget).
  exists t'. split; [exact Hset|]. split; [exact Hwf'|]. split.
  - rewrite Hget, !Z.eqb_refl. reflexivity.
  - intros x' y' Hx' Hy' Hne.
    destruct (Texture_get_set t w h x y v x' y' Hwf Hw Hh Hx Hy Hx' Hy')
      as (t'' & Hset' & _ & Hget').
    rewrite Hset in Hset'. injection Hset' as <-. rewrite Hget'.
    destruct (Z.eqb_spec x' x) as [->|]; [|reflexivity].
    destruct (Z.eqb_spec y' y) as [->|]; [|reflexivity].
    contradiction Hne. reflexivity.
Qed.

Lemma Texture_set_then_get_witness :
  exists t',
    Texture_set (Texture_new 3 2) 1 0 7 = Ok t' /\ wf_texture t' 3 2
    /\ Texture_get t' 1 0 = Ok 7
    /\ forall x' y', 0 <= x' < 3 -> 0 <= y' < 2 ->
         (x', y') <> (1, 0) ->
         Texture_get t' x' y' = Texture_get (Texture_new 3 2) x' y'.
Proof.
  apply Texture_set_then_get; try (unfold is_unsigned; lia).
  apply Texture_new_wf; unfold is_unsigned; lia.
Defined.

(** X3: rows are stored flipped: the pixel [(x, y)] of an image is the
    element [x + width * (height - 1 - y)] of the pixel vector, so row 0
    is stored last; flipping a row twice gives the row back. *)
Theorem Texture_rows_flipped (t : Texture) (w h x y : Z) :
  wf_texture t w h -> is_unsigned w -> is_unsigned h ->
  0 <= x < w -> 0 <= y < h ->
  linearIndex t x (flip t y) = x + w * (h - 1 - y)
  /\ flip t (flip t y) = y
  /\ forall v, Texture_get t x y = Ok v
               <-> data t !! Z.to_nat (x + w * (h - 1 - y)) = Some v.
Proof.
  intros Hwf Hw Hh Hx Hy.
  pose proof (linearIndex_in_range t w h x y Hwf Hw Hh Hx Hy) as Hidx.
  unfold storage_index in Hidx.
  split; [exact Hidx|]. split.
  - destruct Hwf as (_ & Hht & _).
    rewrite (flip_in_range t y) by (rewrite Hht; assumption).
    rewrite flip_in_range; rewrite Hht; [lia | assumption | lia].
  - intros v.
    destruct (Texture_get_in_range t w h x y Hwf Hw Hh Hx Hy)
      as (u & Hu & Hget).
    unfold storage_index in Hu. rewrite Hget, Hu.
    split; intros [= ->]; reflexivity.
Qed.

Lemma Texture_rows_flipped_witness :
  linearIndex (Texture_new 3 2) 1 (flip (Texture_new 3 2) 0) = 1 + 3 * (2 - 1 - 0)
  /\ flip (Texture_new 3 2) (flip (Texture_new 3 2) 0) = 0
  /\ forall v, Texture_get (Texture_new 3 2) 1 0 = Ok v
               <-> data (Texture_new 3 2) !! Z.to_nat (1 + 3 * (2 - 1 - 0))
                   = Some v.
Proof.
  apply Texture_rows_flipped; try (unfold is_unsigned; lia).
  apply Texture_new_wf; unfold is_unsigned; lia.
Defined.

Lemma linearIndex_row_above (t : Texture) (w h x y : Z) :
  wf_texture t w h -> is_unsigned w -> is_unsigned h ->
  0 <= x < w -> h <= y -> is_unsigned y ->
  Z.of_nat (length (data t)) <= linearIndex t x (flip t y).
Proof.
  intros (Hwd & Hht & Hlen) Hw Hh Hx Hy Hyu.
  unfold is_unsigned in *.
  assert (Hflip : h <= flip t y < 2 ^ 32).
  { unfold flip, u32. rewrite Hht.
    destruct (Z.eq_dec y h) as [->|Hne].
    - rewrite Z.sub_diag. change ((0 mod 2 ^ 32 - 1) mod 2 ^ 32) with (2 ^ 32 - 1).
      lia.
    - replace ((h - y) mod 2 ^ 32) with (2 ^ 32 + h - y).
      + rewrite Z.mod_small by lia. lia.
      + apply (Z.mod_unique _ _ (-1)); [left; lia | lia]. }
  unfold linearIndex, u64. rewrite Hwd.
  rewrite (Z.mod_small (w * _)) by nia.
  rewrite Z.mod_small by nia. nia.
Qed.

(** X4: a row at or above [height] is not inside the image: for a column
    inside it, [get] and [set] fail on the bounds check. *)
Theorem Texture_row_out_of_range (t : Texture) (w h x y v : Z) :
  wf_texture t w h -> is_unsigned w -> is_unsigned h ->
  0 <= x < w -> h <= y -> is_unsigned y ->
  Texture_get t x y = Err OutOfBounds
  /\ Texture_set t x y v = Err OutOfBounds.
Proof.
  intros Hwf Hw Hh Hx Hy Hyu.
  pose proof (linearIndex_row_above t w h x y Hwf Hw Hh Hx Hy Hyu) as Hidx.
  unfold Texture_get, Texture_set, in_bounds.
  destruct (Z.ltb_spec (linearIndex t x (flip t y))
              (Z.of_nat (length (data t)))); [lia|].
  split; reflexivity.
Qed.

Lemma Texture_row_out_of_range_witness :
  Texture_get (Texture_new 3 2) 1 5 = Err OutOfBounds
  /\ Texture_set (Texture_new 3 2) 1 5 7 = Err OutOfBounds.
Proof.
  apply (Texture_row_out_of_range _ 3 2); try (unfold is_unsigned; lia).
  apply Texture_new_wf; unfold is_unsigned; lia.
Defined.

(** X5: a column at or past [width] is not detected: for an [unsigned]
    column [x + width], the access lands in the row below, [width]
    columns to the left, as the index is linear. *)
Theorem Texture_column_wraps (t : Texture) (w h x y v : Z) :
  wf_texture t w h -> is_unsigned w -> is_unsigned h ->
  0 <= x < w -> is_unsigned (x + w) -> 1 <= y < h ->
  Texture_get t (x + w) y = Texture_get t x (y - 1)
  /\ Texture_set t (x + w) y v = Texture_set t x (y - 1) v.
Proof.
  intros Hwf Hw Hh Hx _ Hy.
  assert (Hidx : linearIndex t (x + w) (flip t y)
                 = linearIndex t x (flip t (y - 1))).
  { destruct Hwf as (Hwd & Hht & _).
    rewrite !flip_in_range by (rewrite Hht; first [assumption | lia]).
    unfold linearIndex, u64, is_unsigned in *. rewrite Hwd, Hht.
    rewrite !(Z.mod_small (w * _)) by nia. f_equal. ring. }
  unfold Texture_get, Texture_set. rewrite Hidx. split; reflexivity.
Qed.

Lemma Texture_column_wraps_witness :
  Texture_get (Texture_new 3 2) (2 + 3) 1 = Texture_get (Texture_new 3 2) 2 (1 - 1)
  /\ Texture_set (Texture_new 3 2) (2 + 3) 1 7
     = Texture_set (Texture_new 3 2) 2 (1 - 1) 7.
Proof.
  apply (Texture_column_wraps _ 3 2); try (unfold is_unsigned; lia).
  apply Texture_new_wf; unfold is_unsigned; lia.
Defined.

(** ** Packed pixels *)

Ltac bool_cases :=
  repeat match goal with
  | |- context [?a <? ?b] => destruct (Z.ltb_spec a b); try lia
  | |- context [?a <=? ?b] => destruct (Z.leb_spec a b); try lia
  end.

(** The float of a byte: it packs back to the byte, is a binary32 value,
    and is [+0] or positive and finite. *)
Lemma cvt_float32_byte (b : Z) :
  0 <= b <= 255 ->
  cvt_uint32 (cvt_float32 b) = Ok b
  /\ F32.valid (cvt_float32 b) = true
  /\ (cvt_float32 b = S754_zero false
      \/ exists m e, cvt_float32 b = S754_finite false m e).
Proof.
  intros Hb.
  assert (Hall : forallb
            (fun n =>
               let d := cvt_float32 (Z.of_nat n) in
               match cvt_uint32 d with
               | Ok r => r =? Z.of_nat n
               | Err _ => false
               end
               && F32.valid d
               && match d with
                  | S754_zero false | S754_finite false _ _ => true
                  | _ => false
                  end) (List.seq 0 256) = true)
    by (vm_compute; reflexivity).
  rewrite forallb_forall in Hall.
  assert (Hin : In (Z.to_nat b) (List.seq 0 256)) by (apply in_seq; lia).
  specialize (Hall (Z.to_nat b) Hin).
  rewrite Z2Nat.id in Hall by lia. cbn zeta in Hall.
  apply andb_prop in Hall. destruct Hall as [Hall Hshape].
  apply andb_prop in Hall. destruct Hall as [Hrt Hvalid].
  split; [|split; [exact Hvalid|]].
  - destruct (cvt_uint32 (cvt_float32 b)) as [r|e]; [|discriminate Hrt].
    f_equal. apply Z.eqb_eq. exact Hrt.
  - destruct (cvt_float32 b) as [[|]|[|]| |[|] m e]; try discriminate Hshape.
    + left. reflexivity.
    + right. eauto.
Qed.

Lemma land_255_byte (x : Z) : 0 <= Z.land x 255 <= 255.
Proof.
  assert (Hmod : Z.land x 255 = x mod 2 ^ 8).
  { change 255 with (Z.ones 8). apply Z.land_ones. lia. }
  assert (H8 : 0 < 2 ^ 8) by lia.
  pose proof (Z.mod_pos_bound x (2 ^ 8) H8). lia.
Qed.

Lemma pack_unpack_bits (u : Z) :
  is_unsigned u ->
  Z.lor (Z.lor (Z.lor (u32 (Z.shiftl (Z.land u 255) 0))
                      (u32 (Z.shiftl (Z.land (Z.shiftr u 8) 255) 8)))
               (u32 (Z.shiftl (Z.land (Z.shiftr u 16) 255) 16)))
        (u32 (Z.shiftl (Z.land (Z.shiftr u 24) 255) 24)) = u.
Proof.
  intros Hu. unfold is_unsigned in Hu.
  apply Z.bits_inj'. intros n Hn.
  assert (Hhigh : 32 <= n -> Z.testbit u n = false).
  { intros H. rewrite <- (Z.mod_small u (2 ^ 32)) by lia.
    apply Z.mod_pow2_bits_high. lia. }
  unfold u32. rewrite !Z.lor_spec, !Z.testbit_mod_pow2 by lia.
  rewrite !Z.shiftl_spec by lia. rewrite !Z.land_spec.
  change 255 with (Z.ones 8). rewrite !Z.testbit_ones by lia.
  bool_cases; cbn [andb orb];
    rewrite ?andb_false_r, ?andb_true_r, ?orb_false_r, ?orb_false_l;
    rewrite ?Z.shiftr_spec by lia;
    try (f_equal; lia); try (symmetry; apply Hhigh; lia).
Qed.

Lemma cvt_uint32_rgba_unpack (u : Z) :
  is_unsigned u -> cvt_uint32_rgba (cvt_rgba32f u) = Ok u.
Proof.
  intros Hu. unfold cvt_uint32_rgba, cvt_rgba32f. cbn [v4x v4y v4z v4w].
  destruct (cvt_float32_byte _ (land_255_byte u)) as (-> & _).
  destruct (cvt_float32_byte _ (land_255_byte (Z.shiftr u 8))) as (-> & _).
  destruct (cvt_float32_byte _ (land_255_byte (Z.shiftr u 16))) as (-> & _).
  destruct (cvt_float32_byte _ (land_255_byte (Z.shiftr u 24))) as (-> & _).
  cbn [bind]. f_equal. apply pack_unpack_bits. exact Hu.
Qed.

(** X6: unpacking a [uint32_t] pixel into four floats and packing them
    again gives the pixel back. *)
Theorem pack_unpack_roundtrip (u : Z) :
  is_unsigned u -> cvt_uint32_rgba (cvt_rgba32f u) = Ok u.
Proof. apply cvt_uint32_rgba_unpack. Qed.

Lemma pack_unpack_roundtrip_witness :
  cvt_uint32_rgba (cvt_rgba32f 4070152601) = Ok 4070152601.
Proof. apply pack_unpack_roundtrip. unfold is_unsigned. lia. Defined.

Lemma u32_unsigned (z : Z) : is_unsigned (u32 z).
Proof. unfold is_unsigned, u32. apply Z.mod_pos_bound. lia. Qed.

Lemma lor_u32 (a b : Z) : Z.lor (u32 a) (u32 b) = u32 (Z.lor a b).
Proof.
  unfold u32. rewrite <- !Z.land_ones by lia.
  symmetry. apply Z.land_lor_distr_l.
Qed.

Lemma cvt_uint32_rgba_unsigned (v : vec4f) (u : Z) :
  cvt_uint32_rgba v = Ok u -> is_unsigned u.
Proof.
  unfold cvt_uint32_rgba.
  destruct (cvt_uint32 (v4x v)) as [r|]; [|discriminate].
  destruct (cvt_uint32 (v4y v)) as [g|]; [|discriminate].
  destruct (cvt_uint32 (v4z v)) as [b|]; [|discriminate].
  destruct (cvt_uint32 (v4w v)) as [a|]; [|discriminate].
  cbn [bind]. intros [= <-]. rewrite !lor_u32. apply u32_unsigned.
Qed.

(** A fully transparent black [src] pixel leaves [dst] as it is. *)
Lemma blend_pixel_transparent (a : Z) :
  is_unsigned a -> blend_pixel 0 a = Ok a.
Proof.
  intros Ha. unfold blend_pixel.
  change (cvt_rgba32f 0) with (mk_vec4f F32.zero F32.zero F32.zero F32.zero).
  replace (over _ (cvt_rgba32f a)) with (cvt_rgba32f a);
    [apply cvt_uint32_rgba_unpack; exact Ha|].
  unfold over, vec4f_add, vec4f_scale, cvt_rgba32f. cbn [v4x v4y v4z v4w].
  change (F32.sub F32.one F32.zero) with F32.one.
  destruct (cvt_float32_byte _ (land_255_byte a)) as (_ & V0 & S0).
  destruct (cvt_float32_byte _ (land_255_byte (Z.shiftr a 8))) as (_ & V1 & S1).
  destruct (cvt_float32_byte _ (land_255_byte (Z.shiftr a 16)))
    as (_ & V2 & S2).
  destruct (cvt_float32_byte _ (land_255_byte (Z.shiftr a 24)))
    as (_ & V3 & S3).
  rewrite !mul_one_l by assumption.
  destruct S0 as [-> | (? & ? & ->)]; destruct S1 as [-> | (? & ? & ->)];
    destruct S2 as [-> | (? & ? & ->)]; destruct S3 as [-> | (? & ? & ->)];
    reflexivity.
Qed.

(** A [src] pixel of alpha 255 hides [dst]. *)
Lemma blend_pixel_opaque (b a : Z) :
  is_unsigned b -> alpha_byte b = 255 -> blend_pixel b a = Ok b.
Proof.
  intros Hb Halpha. unfold blend_pixel.
  replace (over (cvt_rgba32f b) (cvt_rgba32f a)) with (cvt_rgba32f b);
    [apply cvt_uint32_rgba_unpack; exact Hb|].
  unfold over, vec4f_add, vec4f_scale, cvt_rgba32f. cbn [v4x v4y v4z v4w].
  fold (alpha_byte b). rewrite Halpha.
  change (F32.sub F32.one (cvt_float32 255)) with F32.zero.
  destruct (cvt_float32_byte _ (land_255_byte a)) as (_ & _ & A0).
  destruct (cvt_float32_byte _ (land_255_byte (Z.shiftr a 8))) as (_ & _ & A1).
  destruct (cvt_float32_byte _ (land_255_byte (Z.shiftr a 16)))
    as (_ & _ & A2).
  destruct (cvt_float32_byte _ (land_255_byte (Z.shiftr a 24)))
    as (_ & _ & A3).
  destruct (cvt_float32_byte _ (land_255_byte b)) as (_ & _ & B0).
  destruct (cvt_float32_byte _ (land_255_byte (Z.shiftr b 8))) as (_ & _ & B1).
  destruct (cvt_float32_byte _ (land_255_byte (Z.shiftr b 16)))
    as (_ & _ & B2).
  destruct A0 as [-> | (? & ? & ->)]; destruct A1 as [-> | (? & ? & ->)];
    destruct A2 as [-> | (? & ? & ->)]; destruct A3 as [-> | (? & ? & ->)];
    destruct B0 as [-> | (? & ? & ->)]; destruct B1 as [-> | (? & ? & ->)];
    destruct B2 as [-> | (? & ? & ->)]; reflexivity.
Qed.

(** ** What the rasterizers return *)

Lemma Texture_set_image_ok (t t' : Texture) (w h x y v : Z) :
  image_ok t w h -> is_unsigned v -> Texture_set t x y v = Ok t' ->
  image_ok t' w h.
Proof.
  intros [Hwf Hpix] Hv Hset. split.
  - eapply Texture_set_wf; eassumption.
  - unfold Texture_set in Hset.
    destruct (in_bounds _ _); [|discriminate Hset].
    injection Hset as <-. unfold pixels_unsigned. cbn [data].
    apply Forall_insert; assumption.
Qed.

Lemma Texture_new_image_ok (w h : Z) :
  is_unsigned w -> is_unsigned h -> image_ok (Texture_new w h) w h.
Proof.
  intros Hw Hh. split; [apply Texture_new_wf; assumption|].
  unfold pixels_unsigned, Texture_new. cbn [data].
  apply Forall_replicate. unfold is_unsigned. lia.
Qed.

Lemma Function_rasterize_image_ok (eval : float -> float) (w h : Z)
    (tex : Texture) :
  is_unsigned w -> is_unsigned h ->
  Function_rasterize eval w h = Ok tex -> image_ok tex w h.
Proof.
  intros Hw Hh. unfold Function_rasterize.
  apply (for_range_preserves _ (fun t => image_ok t w h));
    [|apply Texture_new_image_ok; assumption].
  intros x t t' Hok.
  destruct (column_rows eval w h x) as [n|e]; [|discriminate]. cbn [bind].
  apply (for_range_preserves _ (fun t => image_ok t w h)); [|exact Hok].
  intros y u u' Hu. rewrite fill_pixel_eq. cbn [bind].
  apply Texture_set_image_ok; [exact Hu|]. unfold is_unsigned, fill_pixel. lia.
Qed.

Lemma Checkers_rasterize_image_ok (c : Checkers) (w h : Z) (tex : Texture) :
  is_unsigned w -> is_unsigned h ->
  Checkers_rasterize c w h = Ok tex -> image_ok tex w h.
Proof.
  intros Hw Hh. unfold Checkers_rasterize.
  apply (for_range_preserves _ (fun t => image_ok t w h));
    [|apply Texture_new_image_ok; assumption].
  intros y t t' Hok.
  apply (for_range_preserves _ (fun t => image_ok t w h)); [|exact Hok].
  intros x u u' Hu.
  destruct (checkerSize c =? 0); [discriminate|].
  destruct (cvt_uint32_rgba _) as [v|e] eqn:Hv; [|discriminate].
  cbn [bind]. apply Texture_set_image_ok; [exact Hu|].
  eapply cvt_uint32_rgba_unsigned. exact Hv.
Qed.

Lemma Layer_rasterize_image_ok (l : Layer) (w h : Z) (tex : Texture) :
  is_unsigned w -> is_unsigned h ->
  Layer_rasterize l w h = Ok tex -> image_ok tex w h.
Proof.
  destruct l as [f|c]; cbn [Layer_rasterize].
  - apply Function_rasterize_image_ok.
  - apply Checkers_rasterize_image_ok.
Qed.

Lemma layerOver_image_ok (A B B' : Texture) (w h : Z) :
  image_ok B w h -> layerOver A B = Ok B' -> image_ok B' w h.
Proof.
  intros HB. unfold layerOver.
  apply (for_range_preserves _ (fun t => image_ok t w h)); [|exact HB].
  intros y t t' Hok.
  apply (for_range_preserves _ (fun t => image_ok t w h)); [|exact Hok].
  intros x u u' Hu.
  destruct (Texture_get A _ _) as [a|]; [|discriminate]. cbn [bind].
  destruct (Texture_get u _ _) as [b|]; [|discriminate]. cbn [bind].
  destruct (blend_pixel b a) as [v|] eqn:Hv; [|discriminate]. cbn [bind].
  apply Texture_set_image_ok; [exact Hu|].
  eapply cvt_uint32_rgba_unsigned. exact Hv.
Qed.

Lemma TFEditor_composite_image_ok (ed : TFEditor) (w h : Z) (tex : Texture) :
  is_unsigned w -> is_unsigned h ->
  TFEditor_composite ed w h = Ok tex -> image_ok tex w h.
Proof.
  intros Hw Hh. unfold TFEditor_composite.
  assert (Hfs : forall fs acc t, image_ok acc w h ->
            for_each fs (fun f tex =>
              layer <- Function_rasterize (Function_eval (sp_obj f)) w h ;;
              layerOver layer tex) acc = Ok t ->
            image_ok t w h).
  { induction fs as [|f fs IH]; intros acc t Hacc; cbn [for_each].
    - intros [= <-]. exact Hacc.
    - destruct (Function_rasterize _ w h) as [layer|]; [|discriminate].
      cbn [bind].
      destruct (layerOver layer acc) as [acc'|] eqn:Hover; [|discriminate].
      cbn [bind]. apply IH. eapply layerOver_image_ok; eassumption. }
  destruct (for_each (functions ed) _ (Texture_new w h)) as [acc|] eqn:Hacc;
    [|discriminate].
  cbn [bind].
  pose proof (Hfs _ _ _ (Texture_new_image_ok w h Hw Hh) Hacc) as Hok.
  destruct (background ed) as [bg|]; [|intros [= <-]; exact Hok].
  destruct (Layer_rasterize bg w h) as [A|]; [|discriminate]. cbn [bind].
  apply layerOver_image_ok. exact Hok.
Qed.

Lemma TFEditor_outline_image_ok (ed : TFEditor) (w h : Z)
    (tex tex' : Texture) :
  image_ok tex w h -> TFEditor_outline ed w h tex = Ok tex' ->
  image_ok tex' w h.
Proof.
  intros Hok. unfold TFEditor_outline.
  destruct (showOutline ed); [|intros [= <-]; exact Hok].
  apply (for_range_preserves _ (fun t => image_ok t w h)); [|exact Hok].
  intros x t t' Ht. cbn zeta.
  destruct (F32.ltb _ _); [|intros [= <-]; exact Ht].
  destruct (F32.to_unsigned _) as [y|]; [|discriminate]. cbn [bind].
  rewrite outline_pixel_eq. cbn [bind].
  apply Texture_set_image_ok; [exact Ht|].
  unfold is_unsigned, outline_pixel. lia.
Qed.

(** X7: whatever a layer's [rasterize] or the editor's [rasterize]
    returns is an image of the requested width and height with
    [width * height] pixels, each a [uint32_t] value. *)
Theorem rasterize_returns_image (w h : Z) :
  is_unsigned w -> is_unsigned h ->
  (forall l tex, Layer_rasterize l w h = Ok tex -> image_ok tex w h)
  /\ (forall ed tex, TFEditor_rasterize ed w h = Ok tex -> image_ok tex w h).
Proof.
  intros Hw Hh. split.
  - intros l tex. apply Layer_rasterize_image_ok; assumption.
  - intros ed tex. unfold TFEditor_rasterize.
    destruct (TFEditor_composite ed w h) as [t|] eqn:Hc; [|discriminate].
    cbn [bind]. apply TFEditor_outline_image_ok.
    eapply TFEditor_composite_image_ok; eassumption.
Qed.

Lemma rasterize_returns_image_witness :
  exists tex, TFEditor_rasterize tent_editor 4 4 = Ok tex
              /\ image_ok tex 4 4.
Proof.
  destruct (TFEditor_rasterize tent_editor 4 4) as [tex|e] eqn:Hr;
    [|vm_compute in Hr; discriminate Hr].
  exists tex. split; [reflexivity|].
  assert (Hu : is_unsigned 4) by (unfold is_unsigned; lia).
  destruct (rasterize_returns_image 4 4 Hu Hu) as [_ Hed].
  apply (Hed tent_editor). exact Hr.
Defined.

(** ** Compositing onto transparent and under opaque pixels *)

Lemma layerOver_onto_zero (A : Texture) (w h : Z) :
  is_unsigned w -> is_unsigned h -> image_ok A w h ->
  layerOver A (Texture_new w h) = Ok A.
Proof.
  intros Hw Hh [HA Hpix].
  rewrite (layerOver_zip w h Hw Hh A (Texture_new w h) HA
             (Texture_new_wf w h Hw Hh)).
  pose proof (Texture_new_wf w h Hw Hh) as (HBw & HBh & HBlen).
  destruct HA as (HAw & HAh & HAlen).
  rewrite (zip_with_result_ok blend_pixel (data (Texture_new w h)) (data A)
             (data A)).
  - cbn [bind]. rewrite HBw, HBh. destruct A as [w' h' d']. cbn in *.
    congruence.
  - lia.
  - lia.
  - intros i b a Hb Ha. cbn [Texture_new data] in Hb.
    apply lookup_replicate in Hb. destruct Hb as [-> _].
    exists a. split; [|exact Ha].
    apply blend_pixel_transparent.
    unfold pixels_unsigned in Hpix. rewrite Forall_lookup in Hpix.
    eapply Hpix. exact Ha.
Qed.

(** X8: compositing a layer with [layerOver] onto the all-zero image
    yields the layer itself: the first layer is copied pixel by pixel. *)
Theorem layerOver_first_layer (A : Texture) (w h : Z) :
  is_unsigned w -> is_unsigned h -> image_ok A w h ->
  layerOver A (Texture_new w h) = Ok A.
Proof. apply layerOver_onto_zero. Qed.

Lemma layerOver_first_layer_witness :
  exists A, Function_rasterize (Function_eval (FTent Tent_default)) 3 4 = Ok A
            /\ layerOver A (Texture_new 3 4) = Ok A.
Proof.
  assert (H3 : is_unsigned 3) by (unfold is_unsigned; lia).
  assert (H4 : is_unsigned 4) by (unfold is_unsigned; lia).
  destruct (Function_rasterize (Function_eval (FTent Tent_default)) 3 4)
    as [A|e] eqn:HA; [|vm_compute in HA; discriminate HA].
  exists A. split; [reflexivity|].
  apply layerOver_first_layer; [exact H3 | exact H4 |].
  eapply Function_rasterize_image_ok; eassumption.
Defined.

Lemma layerOver_under_opaque (A B : Texture) (w h : Z) :
  is_unsigned w -> is_unsigned h ->
  wf_texture A w h -> wf_texture B w h -> pixels_opaque B ->
  layerOver A B = Ok B.
Proof.
  intros Hw Hh HA HB Hop.
  rewrite (layerOver_zip w h Hw Hh A B HA HB).
  destruct HA as (HAw & HAh & HAlen). destruct HB as (HBw & HBh & HBlen).
  rewrite (zip_with_result_ok blend_pixel (data B) (data A) (data B)).
  - cbn [bind]. destruct B as [w' h' d']. reflexivity.
  - lia.
  - reflexivity.
  - intros i b a Hb Ha. exists b. split; [|exact Hb].
    unfold pixels_opaque in Hop. rewrite Forall_lookup in Hop.
    destruct (Hop i b Hb) as [Hbu Halpha].
    apply blend_pixel_opaque; assumption.
Qed.

(** X9: an accumulator whose pixels all have alpha 255 is left as it is
    by [layerOver]: nothing composited under opaque pixels shows. *)
Theorem layerOver_opaque_accumulator (A B : Texture) (w h : Z) :
  is_unsigned w -> is_unsigned h ->
  wf_texture A w h -> wf_texture B w h -> pixels_opaque B ->
  layerOver A B = Ok B.
Proof. apply layerOver_under_opaque. Qed.

Lemma layerOver_opaque_accumulator_witness :
  layerOver (Texture_new 2 2) (mk_Texture 2 2 (replicate 4 outline_pixel))
  = Ok (mk_Texture 2 2 (replicate 4 outline_pixel)).
Proof.
  assert (H2 : is_unsigned 2) by (unfold is_unsigned; lia).
  apply (layerOver_opaque_accumulator _ _ 2 2 H2 H2).
  - apply Texture_new_wf; assumption.
  - repeat split.
  - unfold pixels_opaque. cbn [data]. apply Forall_replicate.
    split; [unfold is_unsigned, outline_pixel; lia | reflexivity].
Defined.

(** ** Editors without functions, images without columns *)

Lemma for_loop_identity {St : Type} (body : Z -> St -> result St) (n : nat) :
  forall i s,
    (forall j t, i <= j < i + Z.of_nat n -> body j t = Ok t) ->
    for_loop n i body s = Ok s.
Proof.
  induction n as [|n IH]; intros i s Hid; [reflexivity|].
  cbn [for_loop]. rewrite Hid by lia. cbn [bind].
  apply IH. intros j t Hj. apply Hid. lia.
Qed.

Lemma for_range_identity {St : Type} (body : Z -> St -> result St)
    (lo hi : Z) (s : St) :
  (forall j t, lo <= j < hi -> body j t = Ok t) ->
  for_range lo hi body s = Ok s.
Proof.
  intros Hid. unfold for_range. apply for_loop_identity.
  intros j t Hj. apply Hid. lia.
Qed.

Lemma TFEditor_outline_without_functions (ed : TFEditor) (w h : Z)
    (tex : Texture) :
  functions ed = [] -> TFEditor_outline ed w h tex = Ok tex.
Proof.
  intros Hfs. unfold TFEditor_outline.
  destruct (showOutline ed); [|reflexivity].
  apply for_range_identity. intros x t _. cbn zeta.
  unfold TFEditor_eval. rewrite Hfs. reflexivity.
Qed.

(** X10: an editor without functions rasterizes to exactly what its
    background rasterizes to, and to the all-zero image when it has no
    background; the outline adds nothing. *)
Theorem rasterize_without_functions (ed : TFEditor) (w h : Z) :
  is_unsigned w -> is_unsigned h -> functions ed = [] ->
  TFEditor_rasterize ed w h
  = match background ed with
    | Some bg => Layer_rasterize bg w h
    | None => Ok (Texture_new w h)
    end.
Proof.
  intros Hw Hh Hfs. unfold TFEditor_rasterize, TFEditor_composite.
  rewrite Hfs. cbn [for_each bind].
  destruct (background ed) as [bg|].
  - destruct (Layer_rasterize bg w h) as [A|e] eqn:HA; [|reflexivity].
    cbn [bind].
    rewrite (layerOver_onto_zero A w h Hw Hh
               (Layer_rasterize_image_ok bg w h A Hw Hh HA)).
    cbn [bind]. apply TFEditor_outline_without_functions. exact Hfs.
  - cbn [bind]. apply TFEditor_outline_without_functions. exact Hfs.
Qed.

Lemma rasterize_without_functions_witness :
  TFEditor_rasterize (mk_TFEditor (Some (LCheckers example_checkers)) [] true)
    4 2
  = match background
            (mk_TFEditor (Some (LCheckers example_checkers)) [] true) with
    | Some bg => Layer_rasterize bg 4 2
    | None => Ok (Texture_new 4 2)
    end.
Proof.
  apply rasterize_without_functions.
  - unfold is_unsigned. lia.
  - unfold is_unsigned. lia.
  - reflexivity.
Defined.

Lemma Function_rasterize_no_columns (eval : float -> float) (h : Z) :
  Function_rasterize eval 0 h = Ok (mk_Texture 0 h []).
Proof. reflexivity. Qed.

Lemma Checkers_rasterize_no_columns (c : Checkers) (h : Z) :
  Checkers_rasterize c 0 h = Ok (mk_Texture 0 h []).
Proof.
  unfold Checkers_rasterize. cbn zeta.
  rewrite for_range_identity; [reflexivity|].
  intros y t _. reflexivity.
Qed.

Lemma layerOver_no_columns (h : Z) (B : Texture) :
  layerOver (mk_Texture 0 h []) B = Ok B.
Proof.
  unfold layerOver. cbn [width height].
  apply for_range_identity. intros y t _. reflexivity.
Qed.

(** X11: at width 0 [TFEditor::rasterize] returns the image without
    pixels for every editor and height: no function is evaluated, no
    checker cell is computed and nothing is written. *)
Theorem rasterize_no_columns (ed : TFEditor) (h : Z) :
  TFEditor_rasterize ed 0 h = Ok (mk_Texture 0 h []).
Proof.
  unfold TFEditor_rasterize, TFEditor_composite.
  assert (Hfs : forall fs acc,
            for_each fs (fun f tex =>
              layer <- Function_rasterize (Function_eval (sp_obj f)) 0 h ;;
              layerOver layer tex) acc = Ok acc).
  { induction fs as [|f fs IH]; intros acc; [reflexivity|].
    cbn [for_each]. rewrite Function_rasterize_no_columns. cbn [bind].
    rewrite layerOver_no_columns. cbn [bind]. apply IH. }
  rewrite Hfs. cbn [bind].
  change (Texture_new 0 h) with (mk_Texture 0 h []).
  assert (Hbg : match background ed with
                | Some bg => A <- Layer_rasterize bg 0 h ;;
                             layerOver A (mk_Texture 0 h [])
                | None => Ok (mk_Texture 0 h [])
                end = Ok (mk_Texture 0 h [])).
  { destruct (background ed) as [[f|c]|]; cbn [Layer_rasterize];
      [rewrite Function_rasterize_no_columns
      |rewrite Checkers_rasterize_no_columns|reflexivity];
      cbn [bind]; apply layerOver_no_columns. }
  rewrite Hbg. cbn [bind].
  unfold TFEditor_outline. destruct (showOutline ed); reflexivity.
Qed.

(** ** Checkers::rasterize *)

Section CheckersRasterize.
Variable c : Checkers.
Variables w h c0 c1 : Z.
Hypothesis Hw : is_unsigned w.
Hypothesis Hh : is_unsigned h.
Hypothesis Hcs : checkerSize c <> 0.
Hypothesis Hc0 : cvt_uint32_rgba (checker_color1 c) = Ok c0.
Hypothesis Hc1 : cvt_uint32_rgba (checker_color2 c) = Ok c1.

Lemma checker_row (y : Z) (tex : Texture) :
  0 <= y < h ->
  checkered_upto c w h c0 c1 y 0 tex ->
  exists tex',
    for_range 0 w (fun x tex =>
      if checkerSize c =? 0 then Err DivisionByZero
      else
        let xx := x / checkerSize c in
        let yy := y / checkerSize c in
        let col := if xx mod 2 =? yy mod 2 then checker_color1 c
                   else checker_color2 c in
        v <- cvt_uint32_rgba col ;;
        Texture_set tex x y v) tex = Ok tex'
    /\ checkered_upto c w h c0 c1 (y + 1) 0 tex'.
Proof.
  intros Hy Hstart.
  destruct (for_range_total
              (fun x tex =>
                 if checkerSize c =? 0 then Err DivisionByZero
                 else
                   let xx := x / checkerSize c in
                   let yy := y / checkerSize c in
                   let col := if xx mod 2 =? yy mod 2 then checker_color1 c
                              else checker_color2 c in
                   v <- cvt_uint32_rgba col ;;
                   Texture_set tex x y v)
              (fun x tex => checkered_upto c w h c0 c1 y x tex) 0 w tex)
    as (tex' & Hrun & Hend).
  - unfold is_unsigned in Hw. lia.
  - exact Hstart.
  - intros x t Hx [Hwf Hpix]. cbn zeta.
    destruct (Z.eqb_spec (checkerSize c) 0) as [Hz|_]; [contradiction|].
    assert (Hv : cvt_uint32_rgba
                   (if (x / checkerSize c) mod 2 =? (y / checkerSize c) mod 2
                    then checker_color1 c else checker_color2 c)
                 = Ok (checker_pixel c c0 c1 x y)).
    { unfold checker_pixel. destruct (_ =? _); assumption. }
    rewrite Hv. cbn [bind].
    destruct (Texture_get_set t w h x y (checker_pixel c c0 c1 x y) 0 0
                Hwf Hw Hh) as (t' & Hset & Hwf' & _); [lia..|].
    exists t'. split; [exact Hset|]. split; [exact Hwf'|].
    intros x' y' Hx' Hy'.
    destruct (Texture_get_set t w h x y (checker_pixel c c0 c1 x y) x' y'
                Hwf Hw Hh) as (t'' & Hset' & _ & Hget); [lia..|].
    rewrite Hset in Hset'. injection Hset' as <-.
    rewrite Hget, (Hpix x' y' Hx' Hy').
    destruct (Z.eqb_spec x' x); destruct (Z.eqb_spec y' y);
      bool_cases; cbn [andb orb]; subst; reflexivity.
  - exists tex'. split; [exact Hrun|].
    destruct Hend as [Hwf Hpix]. split; [exact Hwf|].
    intros x' y' Hx' Hy'. rewrite (Hpix x' y' Hx' Hy').
    destruct (Z.eqb_spec y' y); destruct (Z.eqb_spec y' (y + 1));
      bool_cases; cbn [andb orb]; reflexivity.
Qed.

Lemma Checkers_rasterize_checkered :
  exists tex, Checkers_rasterize c w h = Ok tex
              /\ checkered_upto c w h c0 c1 h 0 tex.
Proof.
  unfold Checkers_rasterize. cbn zeta.
  apply (for_range_total _ (fun y tex => checkered_upto c w h c0 c1 y 0 tex)).
  - unfold is_unsigned in Hh. lia.
  - split; [apply Texture_new_wf; assumption|].
    intros x' y' Hx' Hy'. rewrite Texture_get_new by assumption.
    bool_cases; destruct (Z.eqb_spec y' 0); cbn [andb orb]; reflexivity.
  - intros y t Hy Hinv. apply checker_row; assumption.
Qed.
End CheckersRasterize.

(** X12: for a checker size other than 0 and colours that pack to [c0]
    and [c1], [Checkers::rasterize] returns the image whose pixel
    [(x, y)] is [c0] when [x / cs] and [y / cs] have the same parity and
    [c1] otherwise. *)
Theorem Checkers_rasterize_pattern (c : Checkers) (w h c0 c1 : Z) :
  is_unsigned w -> is_unsigned h -> checkerSize c <> 0 ->
  cvt_uint32_rgba (checker_color1 c) = Ok c0 ->
  cvt_uint32_rgba (checker_color2 c) = Ok c1 ->
  exists tex,
    Checkers_rasterize c w h = Ok tex /\ wf_texture tex w h /\
    forall x y, 0 <= x < w -> 0 <= y < h ->
      Texture_get tex x y = Ok (checker_pixel c c0 c1 x y).
Proof.
  intros Hw Hh Hcs Hc0 Hc1.
  destruct (Checkers_rasterize_checkered c w h c0 c1 Hw Hh Hcs Hc0 Hc1)
    as (tex & Hrun & Hwf & Hpix).
  exists tex. split; [exact Hrun|]. split; [exact Hwf|].
  intros x y Hx Hy. rewrite (Hpix x y Hx Hy).
  destruct (Z.ltb_spec y h); [reflexivity | lia].
Qed.

Lemma Checkers_rasterize_pattern_witness :
  exists tex,
    Checkers_rasterize example_checkers 256 128 = Ok tex
    /\ wf_texture tex 256 128 /\
    forall x y, 0 <= x < 256 -> 0 <= y < 128 ->
      Texture_get tex x y
      = Ok (checker_pixel example_checkers 4278190080 4294967295 x y).
Proof.
  apply Checkers_rasterize_pattern.
  - unfold is_unsigned. lia.
  - unfold is_unsigned. lia.
  - discriminate.
  - vm_compute. reflexivity.
  - vm_compute. reflexivity.
Defined.

(** X13: with checker size 0 and an image that has at least one pixel,
    [Checkers::rasterize] fails on the division by the checker size. *)
Theorem Checkers_rasterize_zero_size (c : Checkers) (w h : Z) :
  checkerSize c = 0 -> 0 < w -> 0 < h ->
  Checkers_rasterize c w h = Err DivisionByZero.
Proof.
  intros Hcs Hw Hh. unfold Checkers_rasterize. cbn zeta.
  rewrite for_range_step by lia.
  rewrite (for_range_step _ 0 w) by lia.
  rewrite Hcs. reflexivity.
Qed.

Lemma Checkers_rasterize_zero_size_witness :
  Checkers_rasterize
    (mk_Checkers 0 (mk_vec3f F32.zero F32.zero F32.zero)
                   (mk_vec3f F32.one F32.one F32.one)) 2 2
  = Err DivisionByZero.
Proof. apply Checkers_rasterize_zero_size; [reflexivity | lia | lia]. Defined.

(** ** Curves outside their control points *)

Lemma eval_segments_left (x : float) (cps : list vec2f) :
  ascending_x cps ->
  Forall (fun p => F32.is_nan (v2x p) = false) cps ->
  (forall p rest, cps = p :: rest -> F32.ltb x (v2x p) = true) ->
  eval_segments cps x = F32.zero.
Proof.
  induction cps as [|p1 cps IH]; intros Hs Hnum Hlt; [reflexivity|].
  destruct cps as [|p2 rest]; [reflexivity|].
  cbn [eval_segments]. rewrite (Hlt p1 _ eq_refl). cbn [orb].
  inversion Hs as [|? ? Hs' Hhd]; subst.
  inversion Hhd as [|? ? H12]; subst.
  inversion Hnum as [|? ? _ Hnum']; subst.
  inversion Hnum' as [|? ? Hp2 _]; subst.
  apply IH; [exact Hs' | exact Hnum'|].
  intros p rest' [= <- <-].
  destruct (F32.ltb x (v2x p2)) eqn:Hx2; [reflexivity|].
  pose proof (ltb_negative_transitive x (v2x p2) (v2x p1) Hp2 Hx2 H12) as Hc.
  rewrite (Hlt p1 _ eq_refl) in Hc. discriminate Hc.
Qed.

Lemma all_left_of (x : float) (cps : list vec2f) (pn : vec2f) :
  ascending_x cps ->
  Forall (fun p => F32.is_nan (v2x p) = false) cps ->
  last cps = Some pn -> F32.ltb (v2x pn) x = true ->
  Forall (fun p => F32.ltb (v2x p) x = true) cps.
Proof.
  induction cps as [|p1 cps IH]; intros Hs Hnum Hlast Hlt; [constructor|].
  destruct cps as [|p2 rest].
  - injection Hlast as <-. repeat constructor. exact Hlt.
  - inversion Hs as [|? ? Hs' Hhd]; subst.
    inversion Hhd as [|? ? H12]; subst.
    inversion Hnum as [|? ? Hp1 Hnum']; subst.
    pose proof (IH Hs' Hnum' Hlast Hlt) as Hall.
    constructor; [|exact Hall].
    inversion Hall as [|? ? H2x _]; subst.
    destruct (F32.ltb (v2x p1) x) eqn:H1x; [reflexivity|].
    pose proof (ltb_negative_transitive (v2x p2) (v2x p1) x Hp1 H12 H1x) as Hc.
    rewrite H2x in Hc. discriminate Hc.
Qed.

Lemma eval_segments_right (x : float) (cps : list vec2f) :
  Forall (fun p => F32.ltb (v2x p) x = true) cps ->
  eval_segments cps x = F32.zero.
Proof.
  induction cps as [|p1 cps IH]; intros Hall; [reflexivity|].
  destruct cps as [|p2 rest]; [reflexivity|].
  inversion Hall as [|? ? _ Hall']; subst.
  inversion Hall' as [|? ? H2 _]; subst.
  cbn [eval_segments]. rewrite H2, orb_true_r. apply IH. exact Hall'.
Qed.

(** X14: a curve whose control points are in ascending [x] order (as
    after construction) and whose bounds and [x] values are numbers
    evaluates to 0 at every [x] before its first control point and at
    every [x] behind its last one, also inside [valueRange]. *)
Theorem PiecewiseLinear_eval_outside_points (pl : PiecewiseLinear)
    (x : float) :
  numeric_curve pl -> ascending_x (controlPoints pl) ->
  (forall p rest, controlPoints pl = p :: rest ->
                  F32.ltb x (v2x p) = true ->
                  PiecewiseLinear_eval pl x = F32.zero)
  /\ (forall p, last (controlPoints pl) = Some p ->
                F32.ltb (v2x p) x = true ->
                PiecewiseLinear_eval pl x = F32.zero).
Proof.
  intros (_ & _ & Hnum) Hs. unfold PiecewiseLinear_eval. split.
  - intros p rest Hcps Hlt.
    destruct (_ || _ || _); [reflexivity|].
    apply eval_segments_left; [exact Hs | exact Hnum|].
    intros p' rest' Heq. rewrite Hcps in Heq. injection Heq as <- <-.
    exact Hlt.
  - intros p Hlast Hlt.
    destruct (_ || _ || _); [reflexivity|].
    apply eval_segments_right. eapply all_left_of; eassumption.
Qed.

Lemma PiecewiseLinear_eval_outside_points_witness :
  PiecewiseLinear_eval inner_curve (F32.literal 1 4) = F32.zero
  /\ PiecewiseLinear_eval inner_curve (F32.literal 9 10) = F32.zero.
Proof.
  assert (Hnum : numeric_curve inner_curve).
  { unfold numeric_curve. vm_compute. repeat constructor. }
  assert (Hs : ascending_x (controlPoints inner_curve))
    by apply sort_by_x_sorted.
  split.
  - destruct (PiecewiseLinear_eval_outside_points inner_curve
                (F32.literal 1 4) Hnum Hs) as [Hleft _].
    apply (Hleft (mk_vec2f (F32.literal 3 10) F32.one)
                 [mk_vec2f (F32.literal 8 10) F32.one]);
      vm_compute; reflexivity.
  - destruct (PiecewiseLinear_eval_outside_points inner_curve
                (F32.literal 9 10) Hnum Hs) as [_ Hright].
    apply (Hright (mk_vec2f (F32.literal 8 10) F32.one));
      vm_compute; reflexivity.
Defined.

(** ** Tents *)

(** X15: every constructed tent holds an internal curve of exactly four
    control points, the corners that [initInternal] writes, in ascending
    [x] order and over the range [0,1]; the tent is 0 at every [x] below
    0 or above 1, whatever its tip and widths. *)
Theorem Tent_make_shape (tip : vec2f) (tw bw : float) :
  let t := Tent_make tip tw bw in
  length (controlPoints (internal t)) = 4%nat
  /\ Permutation (Tent_CPs tip tw bw) (controlPoints (internal t))
  /\ ascending_x (controlPoints (internal t))
  /\ pl_valueRange (internal t) = mk_box1f F32.zero F32.one
  /\ forall x, F32.ltb x F32.zero = true \/ F32.ltb F32.one x = true ->
               Tent_eval t x = F32.zero.
Proof.
  cbn zeta. cbn [Tent_make internal controlPoints pl_valueRange
                 PiecewiseLinear_make].
  pose proof (sort_by_x_perm (Tent_CPs tip tw bw)) as Hperm.
  split; [|split; [exact Hperm|split; [apply sort_by_x_sorted|split]]].
  - rewrite <- (Permutation_length Hperm). reflexivity.
  - reflexivity.
  - intros x Hout. unfold Tent_eval, PiecewiseLinear_eval.
    change (lower (pl_valueRange (internal (Tent_make tip tw bw))))
      with F32.zero.
    change (upper (pl_valueRange (internal (Tent_make tip tw bw))))
      with F32.one.
    destruct Hout as [-> | ->]; rewrite ?orb_true_r; reflexivity.
Qed.

Lemma Tent_make_shape_witness :
  Tent_eval (Tent_make (mk_vec2f F32.two F32.one) F32.one F32.two) F32.two
  = F32.zero.
Proof.
  destruct (Tent_make_shape (mk_vec2f F32.two F32.one) F32.one F32.two)
    as (_ & _ & _ & _ & Hout).
  apply Hout. right. reflexivity.
Defined.

(** ** The envelope and hit-testing *)

Lemma TFEditor_eval_number (ed : TFEditor) (x : float) :
  F32.is_nan (TFEditor_eval ed x) = false.
Proof.
  unfold TFEditor_eval.
  destruct (envelope_fold x (functions ed) F32.zero eq_refl) as (H & _).
  exact H.
Qed.

(** X16: after [addFunction(f)] the envelope at [x] is the [fmaxf] of the
    envelope before and [f->eval(x)]; adding a function never lowers
    the envelope. *)
Theorem TFEditor_eval_addFunction (ed : TFEditor) (f : FunctionSP)
    (x : float) :
  TFEditor_eval (addFunction f ed) x
  = F32.fmaxf (TFEditor_eval ed x) (Function_eval (sp_obj f) x)
  /\ F32.ltb (TFEditor_eval (addFunction f ed) x) (TFEditor_eval ed x) = false.
Proof.
  assert (Heq : TFEditor_eval (addFunction f ed) x
                = F32.fmaxf (TFEditor_eval ed x) (Function_eval (sp_obj f) x)).
  { unfold TFEditor_eval. cbn [addFunction functions].
    rewrite fold_left_app. reflexivity. }
  split; [exact Heq|]. rewrite Heq.
  apply (fmaxf_cases _ _ (TFEditor_eval_number ed x)).
Qed.

Lemma select_find (ed : TFEditor) (pos : vec2f) :
  select ed pos = List.find (contains pos) (rev (functions ed)).
Proof.
  unfold select. rewrite select_from_find by lia.
  rewrite firstn_all. reflexivity.
Qed.

(** X17: for a point that is not below 0, [select] finds a function
    exactly when the point lies strictly under the envelope [eval] of
    the editor at [pos.x]. *)
Theorem select_under_envelope (ed : TFEditor) (pos : vec2f) :
  F32.ltb (v2y pos) F32.zero = false ->
  select ed pos <> None
  <-> F32.ltb (v2y pos) (TFEditor_eval ed (v2x pos)) = true.
Proof.
  intros Hy. rewrite select_find.
  destruct (TFEditor_eval_max_with_zero ed (v2x pos))
    as (Hatt & Hnum & _ & Hub & _).
  split.
  - intros Hsel.
    destruct (List.find (contains pos) (rev (functions ed))) as [f|] eqn:Hf;
      [|contradiction].
    apply find_some in Hf. destruct Hf as [Hin Hc].
    apply in_rev in Hin. unfold contains in Hc.
    destruct (F32.ltb (v2y pos) (TFEditor_eval ed (v2x pos))) eqn:He;
      [reflexivity|].
    pose proof (ltb_negative_transitive _ _ _ Hnum He (Hub f Hin)) as Hn.
    rewrite Hc in Hn. discriminate Hn.
  - intros Hlt Hnone.
    destruct Hatt as [Hz | (f & Hin & Hf)].
    + rewrite Hz, Hy in Hlt. discriminate Hlt.
    + apply in_rev in Hin.
      pose proof (find_none _ _ Hnone f Hin) as Hc.
      unfold contains in Hc. rewrite <- Hf, Hlt in Hc. discriminate Hc.
Qed.

Lemma select_under_envelope_witness :
  select two_tents (mk_vec2f F32.half F32.half) <> None
  <-> F32.ltb F32.half (TFEditor_eval two_tents F32.half) = true.
Proof.
  apply (select_under_envelope two_tents (mk_vec2f F32.half F32.half)).
  reflexivity.
Defined.

(** ** An opaque source colour *)

Lemma add_zero_product (a d : float) :
  F32.is_nan a = false -> float_finite d = true ->
  F32.eqb (F32.add a (F32.mul F32.zero d)) a = true.
Proof.
  intros Ha Hd.
  destruct d as [sd| | |sd md ed]; try discriminate Hd;
    destruct a as [sa|sa| |sa ma ea]; try discriminate Ha;
    try (destruct sa, sd; reflexivity);
    try (destruct sa; reflexivity);
    (apply (eqb_refl (S754_finite sa ma ea)); reflexivity).
Qed.

(** X18: a source colour of alpha 1 hides a destination whose channels
    are finite: [over(src, dst) == src] on every channel, for a [src]
    whose channels are numbers. *)
Theorem over_opaque_src (src dst : vec4f) :
  v4w src = F32.one -> vec4f_numeric src -> vec4f_finite dst ->
  vec4f_eqb (over src dst) src = true.
Proof.
  intros Hw (Nx & Ny & Nz & Nw) (Fx & Fy & Fz & Fw).
  unfold over, vec4f_eqb, vec4f_add, vec4f_scale. cbn [v4x v4y v4z v4w].
  rewrite Hw. change (F32.sub F32.one F32.one) with F32.zero.
  rewrite <- Hw.
  rewrite !add_zero_product by assumption. reflexivity.
Qed.

Lemma over_opaque_src_witness :
  vec4f_eqb (over outline_color fill_color) outline_color = true.
Proof.
  apply over_opaque_src.
  - reflexivity.
  - repeat split.
  - repeat split; vm_compute; reflexivity.
Defined.

(** ** The OpenGL adapter *)

Lemma adapter_run_updated (calls : list adapter_call) :
  forall st, updated st = true ->
             updated (fold_left adapter_step calls st) = true.
Proof.
  induction calls as [|call calls IH]; intros st Hst; [exact Hst|].
  cbn [fold_left]. apply IH.
  destruct call as [f|bg|f|w h complete]; try reflexivity.
  cbn [adapter_step]. unfold setupTexture. rewrite Hst. cbn [negb andb].
  destruct complete; cbn [negb fst]; [reflexivity | exact Hst].
Qed.

(** X19: no method of the adapter clears [updated]: after any sequence
    of calls on a new adapter the flag is set, so [setupTexture] never
    takes its early return, and with a complete framebuffer it has the
    editor rasterized again at [width - 16] by [height - 16] (in
    unsigned arithmetic), also at the size of the call before. *)
Theorem setupTexture_always_renders (calls : list adapter_call) (w h : Z) :
  let st := adapter_run calls in
  updated st = true
  /\ snd (setupTexture st w h true) = Some (u32 (w - 16), u32 (h - 16))
  /\ snd (setupTexture (fst (setupTexture st w h true)) w h true)
     = Some (u32 (w - 16), u32 (h - 16)).
Proof.
  cbn zeta.
  pose proof (adapter_run_updated calls TFEditorOpenGL_new eq_refl) as Hup.
  fold (adapter_run calls) in Hup.
  split; [exact Hup|].
  unfold setupTexture. rewrite Hup. cbn [negb andb fst snd updated].
  split; reflexivity.
Qed.

(** ** Rounding of small products *)

Lemma shr_1_m (mrs : shr_record) :
  0 <= shr_m mrs -> shr_m (shr_1 mrs) = shr_m mrs / 2.
Proof.
  destruct mrs as [m r s]. cbn [shr_m]. intros Hm.
  destruct m as [|[p|p|]|p]; cbn [shr_1 shr_m].
  - reflexivity.
  - apply (Z.div_unique _ 2 _ 1); [left; lia|]. rewrite (Pos2Z.inj_xI p). lia.
  - apply (Z.div_unique _ 2 _ 0); [left; lia|]. rewrite (Pos2Z.inj_xO p). lia.
  - reflexivity.
  - lia.
Qed.

Lemma iter_shr_1_m (p : positive) :
  forall mrs, 0 <= shr_m mrs ->
    shr_m (SpecFloat.iter_pos shr_1 p mrs) = shr_m mrs / 2 ^ Z.pos p.
Proof.
  assert (H2 : forall n, 0 <= n -> 0 < 2 ^ n)
    by (intros n Hn; apply Z.pow_pos_nonneg; lia).
  induction p as [p IH|p IH|]; intros mrs Hm; cbn [SpecFloat.iter_pos].
  - assert (H1 : 0 <= shr_m (shr_1 mrs))
      by (rewrite shr_1_m by exact Hm; apply Z.div_pos; lia).
    assert (Hp : 0 <= shr_m (SpecFloat.iter_pos shr_1 p (shr_1 mrs)))
      by (rewrite IH by exact H1; apply Z.div_pos; [exact H1 | apply H2; lia]).
    rewrite IH by exact Hp. rewrite IH by exact H1. rewrite shr_1_m by exact Hm.
    pose proof (H2 (Z.pos p) ltac:(lia)) as Hpp.
    rewrite !Z.div_div by lia.
    f_equal. rewrite (Pos2Z.inj_xI p).
    replace (2 * Z.pos p + 1) with (1 + Z.pos p + Z.pos p) by lia.
    rewrite !Z.pow_add_r by lia. change (2 ^ 1) with 2. ring.
  - assert (Hp : 0 <= shr_m (SpecFloat.iter_pos shr_1 p mrs))
      by (rewrite IH by exact Hm; apply Z.div_pos; [exact Hm | apply H2; lia]).
    rewrite IH by exact Hp. rewrite IH by exact Hm.
    pose proof (H2 (Z.pos p) ltac:(lia)) as Hpp.
    rewrite Z.div_div by lia.
    f_equal.
    assert (Hx : Z.pos p~0 = Z.pos p + Z.pos p)
      by (rewrite (Pos2Z.inj_xO p); lia).
    rewrite Hx. symmetry. apply Z.pow_add_r; lia.
  - rewrite shr_1_m by exact Hm. reflexivity.
Qed.

Lemma shr_record_of_loc_m (m : Z) (l : location) :
  shr_m (shr_record_of_loc m l) = m.
Proof. destruct l as [|[| |]]; reflexivity. Qed.

Lemma shr_spec (m e n : Z) (l : location) :
  0 <= m ->
  shr_m (fst (shr (shr_record_of_loc m l) e n)) = m / 2 ^ Z.max 0 n
  /\ snd (shr (shr_record_of_loc m l) e n) = e + Z.max 0 n.
Proof.
  intros Hm. destruct n as [|p|p]; cbn [shr fst snd].
  - rewrite shr_record_of_loc_m. cbn. rewrite Z.div_1_r. lia.
  - rewrite iter_shr_1_m by (rewrite shr_record_of_loc_m; exact Hm).
    rewrite shr_record_of_loc_m.
    replace (Z.max 0 (Z.pos p)) with (Z.pos p) by lia. split; reflexivity.
  - rewrite shr_record_of_loc_m.
    replace (Z.max 0 (Z.neg p)) with 0 by lia.
    cbn. rewrite Z.div_1_r. lia.
Qed.

Lemma round_nearest_even_bounds (x : Z) (l : location) :
  x <= round_nearest_even x l <= x + 1.
Proof.
  destruct l as [|[| |]]; cbn [round_nearest_even];
    try destruct (Z.even x); lia.
Qed.

Lemma digits2_pos_bounds (m : positive) :
  2 ^ (Z.pos (digits2_pos m) - 1) <= Z.pos m < 2 ^ Z.pos (digits2_pos m).
Proof.
  induction m as [p IH|p IH|].
  - change (digits2_pos p~1) with (Pos.succ (digits2_pos p)).
    rewrite Pos2Z.inj_succ, (Pos2Z.inj_xI p).
    replace (Z.succ (Z.pos (digits2_pos p)) - 1)
      with (Z.succ (Z.pos (digits2_pos p) - 1)) by lia.
    rewrite !Z.pow_succ_r by lia.
    generalize dependent (2 ^ (Z.pos (digits2_pos p) - 1)).
    generalize (2 ^ Z.pos (digits2_pos p)). intros; lia.
  - change (digits2_pos p~0) with (Pos.succ (digits2_pos p)).
    rewrite Pos2Z.inj_succ, (Pos2Z.inj_xO p).
    replace (Z.succ (Z.pos (digits2_pos p)) - 1)
      with (Z.succ (Z.pos (digits2_pos p) - 1)) by lia.
    rewrite !Z.pow_succ_r by lia.
    generalize dependent (2 ^ (Z.pos (digits2_pos p) - 1)).
    generalize (2 ^ Z.pos (digits2_pos p)). intros; lia.
  - cbn. lia.
Qed.

Lemma Zdigits2_le (m n : Z) :
  0 <= n -> 0 <= m < 2 ^ n -> Zdigits2 m <= n.
Proof.
  intros Hn Hm. destruct m as [|p|p]; cbn [Zdigits2]; [lia| |lia].
  pose proof (digits2_pos_bounds p) as [Hlow _].
  assert (Hlt : 2 ^ (Z.pos (digits2_pos p) - 1) < 2 ^ n) by lia.
  apply Z.pow_lt_mono_r_iff in Hlt; lia.
Qed.

Lemma fexp_small (k : Z) : k <= 8 -> fexp F32.prec F32.emax k <= -16.
Proof. unfold fexp, emin, F32.prec, F32.emax. lia. Qed.

Lemma pow2_pos (n : Z) : 0 <= n -> 0 < 2 ^ n.
Proof. intros Hn. apply Z.pow_pos_nonneg; lia. Qed.

(** A number below [255 * 2^(-e)], given as [m * 2^e], has fewer than 9
    digits before the binary point. *)
Lemma Zdigits2_small (m e : Z) :
  0 <= m -> e <= 0 -> m <= 255 * 2 ^ (- e) -> Zdigits2 m + e <= 8.
Proof.
  intros Hm He Hle.
  assert (Hd : Zdigits2 m <= 8 - e).
  { apply Zdigits2_le; [lia|]. split; [exact Hm|].
    replace (8 - e) with (8 + - e) by lia.
    rewrite Z.pow_add_r by lia.
    pose proof (pow2_pos (- e) ltac:(lia)). change (2 ^ 8) with 256. lia. }
  lia.
Qed.

(** The shift of a small number: the exponent stays at most 0, and the
    mantissa is divided by the power of 2 that the exponent gains. *)
Lemma shr_fexp_small (m e : Z) (l : location) :
  0 <= m -> e <= 0 -> m <= 255 * 2 ^ (- e) ->
  let mrs := fst (shr_fexp F32.prec F32.emax m e l) in
  let e' := snd (shr_fexp F32.prec F32.emax m e l) in
  e <= e' <= 0 /\ shr_m mrs = m / 2 ^ (e' - e).
Proof.
  intros Hm He Hle. cbn zeta. unfold shr_fexp.
  pose proof (fexp_small _ (Zdigits2_small m e Hm He Hle)) as Hf.
  destruct (shr_spec m e (fexp F32.prec F32.emax (Zdigits2 m + e) - e) l Hm)
    as [Hq He'].
  rewrite Hq, He'. split; [lia|]. f_equal. f_equal. lia.
Qed.

(** Rounding a non-negative number below 255 and converting the result
    to [unsigned] gives a byte. *)
Lemma binary_round_aux_byte (mx ex : Z) (lx : location) :
  0 <= mx -> ex <= 0 -> mx < 255 * 2 ^ (- ex) ->
  exists r,
    F32.to_unsigned (binary_round_aux F32.prec F32.emax false mx ex lx) = Ok r
    /\ 0 <= r <= 255.
Proof.
  intros Hm He Hlt. unfold binary_round_aux.
  pose proof (shr_fexp_small mx ex lx Hm He ltac:(lia)) as H1.
  destruct (shr_fexp F32.prec F32.emax mx ex lx) as [mrs' e'].
  cbn [fst snd] in H1. cbn zeta in H1. destruct H1 as [He' Hq].
  assert (Hq0 : 0 <= shr_m mrs').
  { rewrite Hq. apply Z.div_pos; [exact Hm | apply pow2_pos; lia]. }
  assert (Hqlt : shr_m mrs' < 255 * 2 ^ (- e')).
  { rewrite Hq. apply Z.div_lt_upper_bound; [apply pow2_pos; lia|].
    replace (2 ^ (e' - ex) * (255 * 2 ^ (- e')))
      with (255 * (2 ^ (e' - ex) * 2 ^ (- e'))) by ring.
    rewrite <- Z.pow_add_r by lia.
    replace (e' - ex + - e') with (- ex) by lia. exact Hlt. }
  pose proof (round_nearest_even_bounds (shr_m mrs') (loc_of_shr_record mrs'))
    as Hr.
  set (m1 := round_nearest_even (shr_m mrs') (loc_of_shr_record mrs')) in *.
  assert (Hm1 : 0 <= m1) by lia.
  assert (Hm1le : m1 <= 255 * 2 ^ (- e')) by lia.
  pose proof (shr_fexp_small m1 e' loc_Exact Hm1 ltac:(lia) Hm1le) as H2.
  destruct (shr_fexp F32.prec F32.emax m1 e' loc_Exact) as [mrs'' e''].
  cbn [fst snd] in H2. cbn zeta in H2. destruct H2 as [He'' Hm2].
  assert (Hm2pos : 0 <= shr_m mrs'').
  { rewrite Hm2. apply Z.div_pos; [exact Hm1 | apply pow2_pos; lia]. }
  assert (Hbyte : shr_m mrs'' / 2 ^ (- e'') <= 255).
  { rewrite Hm2.
    rewrite Z.div_div by (pose proof (pow2_pos (e'' - e')); pose proof (pow2_pos (- e'')); lia).
    rewrite <- Z.pow_add_r by lia.
    replace (e'' - e' + - e'') with (- e') by lia.
    apply Z.div_le_upper_bound; [apply pow2_pos; lia | lia]. }
  destruct (shr_m mrs'') as [|p|p] eqn:Hp.
  - exists 0. split; [reflexivity | lia].
  - destruct (Z.leb_spec e'' (F32.emax - F32.prec));
      [|unfold F32.emax, F32.prec in *; lia].
    exists (Z.pos p / 2 ^ (- e'')). split.
    + unfold F32.to_unsigned, F32.trunc.
      assert (Ha : (if 0 <=? e'' then Z.shiftl (Z.pos p) e''
                    else Z.shiftr (Z.pos p) (- e''))
                   = Z.pos p / 2 ^ (- e'')).
      { destruct (Z.leb_spec 0 e'').
        - replace e'' with 0 by lia. cbn. rewrite Z.div_1_r. reflexivity.
        - apply Z.shiftr_div_pow2. lia. }
      rewrite Ha.
      assert (H0 : 0 <= Z.pos p / 2 ^ (- e''))
        by (apply Z.div_pos; [lia | apply pow2_pos; lia]).
      destruct (Z.leb_spec 0 (Z.pos p / 2 ^ (- e''))); [|lia].
      destruct (Z.ltb_spec (Z.pos p / 2 ^ (- e'')) (2 ^ 32)); [|lia].
      reflexivity.
    + split; [apply Z.div_pos; [lia | apply pow2_pos; lia] | exact Hbyte].
  - lia.
Qed.

Lemma mantissa_small (m : positive) (e : Z) :
  F32.valid (S754_finite false m e) = true -> Z.pos m < 2 ^ 24.
Proof.
  unfold F32.valid, valid_binary, bounded, canonical_mantissa.
  intros Hv. apply andb_prop in Hv. destruct Hv as [Hc _].
  apply Z.eqb_eq in Hc. unfold fexp, emin, F32.prec, F32.emax in Hc.
  pose proof (digits2_pos_bounds m) as [_ Hup].
  assert (Hd : Z.pos (digits2_pos m) <= 24) by lia.
  pose proof (Z.pow_le_mono_r 2 _ _ ltac:(lia) Hd). lia.
Qed.

Lemma cvt_uint32_byte (f : float) :
  F32.valid f = true -> F32.is_nan f = false ->
  exists r, cvt_uint32 f = Ok r /\ 0 <= r <= 255.
Proof.
  intros Hv Hnan. unfold cvt_uint32, clamp.
  destruct (F32.ltb f F32.zero) eqn:Hneg.
  { exists 0. split; [vm_compute; reflexivity | lia]. }
  destruct (F32.ltb F32.one f) eqn:Hbig.
  { exists 255. split; [vm_compute; reflexivity | lia]. }
  destruct f as [s|s| |s m e].
  - exists 0. split; [destruct s; vm_compute; reflexivity | lia].
  - destruct s; [discriminate Hneg | discriminate Hbig].
  - discriminate Hnan.
  - destruct s; [discriminate Hneg|].
    change (F32.mul (F32.of_Z 255) (S754_finite false m e))
      with (binary_round_aux F32.prec F32.emax false
              (Z.pos (16711680 * m)) (-16 + e) loc_Exact).
    unfold F32.ltb, SFltb, F32.one in Hbig. cbn [SFcompare] in Hbig.
    change (Pos.compare_cont Eq 8388608 m) with (Pos.compare 8388608 m) in Hbig.
    rewrite Pos2Z.inj_mul.
    destruct (Z.compare_spec (-23) e) as [He|He|He]; [|discriminate Hbig|].
    + subst e.
      destruct (Pos.compare_spec 8388608 m) as [Hm|Hm|Hm];
        [|discriminate Hbig|].
      * subst m. exists 255. split; [vm_compute; reflexivity | lia].
      * assert (H0 : 0 <= 16711680 * Z.pos m)
          by (apply Z.mul_nonneg_nonneg; [discriminate | apply Pos2Z.is_nonneg]).
        assert (He : -16 + -23 <= 0) by discriminate.
        assert (Hlt : 16711680 * Z.pos m < 255 * 2 ^ (- (-16 + -23))).
        { change (255 * 2 ^ (- (-16 + -23))) with (16711680 * 8388608).
          apply Z.mul_lt_mono_pos_l; [reflexivity|].
          apply Pos2Z.pos_lt_pos. exact Hm. }
        exact (binary_round_aux_byte _ _ _ H0 He Hlt).
    + pose proof (mantissa_small m e Hv) as Hm.
      assert (H0 : 0 <= 16711680 * Z.pos m)
        by (apply Z.mul_nonneg_nonneg; [discriminate | apply Pos2Z.is_nonneg]).
      assert (He0 : -16 + e <= 0) by lia.
      assert (Hlt : 16711680 * Z.pos m < 255 * 2 ^ (- (-16 + e))).
      { assert (Hp : 2 ^ 40 <= 2 ^ (- (-16 + e)))
          by (apply Z.pow_le_mono_r; lia).
        apply Z.lt_le_trans with (16711680 * 2 ^ 24).
        - apply Z.mul_lt_mono_pos_l; [reflexivity | exact Hm].
        - change (16711680 * 2 ^ 24) with (255 * 2 ^ 40).
          apply Z.mul_le_mono_nonneg_l; [discriminate | exact Hp]. }
      exact (binary_round_aux_byte _ _ _ H0 He0 Hlt).
Qed.

Lemma byte_high_bits (r n : Z) :
  0 <= r <= 255 -> 8 <= n -> Z.testbit r n = false.
Proof.
  intros Hr Hn. rewrite <- (Z.mod_small r (2 ^ 8)) by lia.
  apply Z.mod_pow2_bits_high. lia.
Qed.

Lemma pack_bytes_extract (r g b a : Z) :
  0 <= r <= 255 -> 0 <= g <= 255 -> 0 <= b <= 255 -> 0 <= a <= 255 ->
  let u := Z.lor (Z.lor (Z.lor (u32 (Z.shiftl r 0)) (u32 (Z.shiftl g 8)))
                        (u32 (Z.shiftl b 16))) (u32 (Z.shiftl a 24)) in
  Z.land u 255 = r /\ Z.land (Z.shiftr u 8) 255 = g
  /\ Z.land (Z.shiftr u 16) 255 = b /\ Z.land (Z.shiftr u 24) 255 = a.
Proof.
  intros Hr Hg Hb Ha. cbn zeta.
  repeat split; apply Z.bits_inj'; intros n Hn;
    rewrite Z.land_spec, ?Z.shiftr_spec by lia;
    unfold u32; rewrite !Z.lor_spec, !Z.testbit_mod_pow2 by lia;
    rewrite !Z.shiftl_spec by lia;
    change 255 with (Z.ones 8); rewrite Z.testbit_ones by lia;
    bool_cases; cbn [andb orb];
    rewrite ?andb_false_r, ?andb_true_r, ?orb_false_r, ?orb_false_l;
    repeat match goal with
           | |- context [Z.testbit ?x ?i] =>
               first [ rewrite (Z.testbit_neg_r x i) by lia
                     | rewrite (byte_high_bits x i) by lia ]
           end;
    rewrite ?orb_false_r, ?orb_false_l;
    try reflexivity; try (f_equal; lia).
Qed.

(** X20: for every binary32 number (infinities included, NaN excluded),
    [cvt_uint32] is defined and returns a value between 0 and 255. *)
Theorem cvt_uint32_is_byte (f : float) :
  F32.valid f = true -> F32.is_nan f = false ->
  exists r, cvt_uint32 f = Ok r /\ 0 <= r <= 255.
Proof. apply cvt_uint32_byte. Qed.

Lemma cvt_uint32_is_byte_witness :
  exists r, cvt_uint32 (F32.literal 95 100) = Ok r /\ 0 <= r <= 255.
Proof.
  apply (cvt_uint32_is_byte (F32.literal 95 100)).
  - vm_compute. reflexivity.
  - reflexivity.
Defined.

(** X21: packing a colour whose channels are binary32 numbers succeeds,
    and the packed pixel holds the converted R, G, B and A channels in
    its bits 0-7, 8-15, 16-23 and 24-31. *)
Theorem cvt_uint32_rgba_channels (v : vec4f) :
  vec4f_valid v -> vec4f_numeric v ->
  exists r g b a u,
    cvt_uint32 (v4x v) = Ok r /\ cvt_uint32 (v4y v) = Ok g
    /\ cvt_uint32 (v4z v) = Ok b /\ cvt_uint32 (v4w v) = Ok a
    /\ cvt_uint32_rgba v = Ok u /\ is_unsigned u
    /\ Z.land u 255 = r /\ Z.land (Z.shiftr u 8) 255 = g
    /\ Z.land (Z.shiftr u 16) 255 = b /\ Z.land (Z.shiftr u 24) 255 = a.
Proof.
  intros (Vx & Vy & Vz & Vw) (Nx & Ny & Nz & Nw).
  destruct (cvt_uint32_byte _ Vx Nx) as (r & Hr & Hrb).
  destruct (cvt_uint32_byte _ Vy Ny) as (g & Hg & Hgb).
  destruct (cvt_uint32_byte _ Vz Nz) as (b & Hb & Hbb).
  destruct (cvt_uint32_byte _ Vw Nw) as (a & Ha & Hab).
  exists r, g, b, a. eexists.
  split; [exact Hr|]. split; [exact Hg|]. split; [exact Hb|].
  split; [exact Ha|].
  split; [unfold cvt_uint32_rgba; rewrite Hr, Hg, Hb, Ha; reflexivity|].
  split; [rewrite !lor_u32; apply u32_unsigned|].
  apply pack_bytes_extract; assumption.
Qed.

Lemma cvt_uint32_rgba_channels_witness :
  exists r g b a u,
    cvt_uint32 (v4x fill_color) = Ok r /\ cvt_uint32 (v4y fill_color) = Ok g
    /\ cvt_uint32 (v4z fill_color) = Ok b /\ cvt_uint32 (v4w fill_color) = Ok a
    /\ cvt_uint32_rgba fill_color = Ok u /\ is_unsigned u
    /\ Z.land u 255 = r /\ Z.land (Z.shiftr u 8) 255 = g
    /\ Z.land (Z.shiftr u 16) 255 = b /\ Z.land (Z.shiftr u 24) 255 = a.
Proof.
  apply cvt_uint32_rgba_channels; repeat split; vm_compute; reflexivity.
Defined.

(** ** Hit-testing after addFunction *)

(** X22: after [addFunction(g)], [select] returns [g] at the points that
    [g] contains and what it returned before at all other points. *)
Theorem select_addFunction (ed : TFEditor) (g : FunctionSP) (pos : vec2f) :
  select (addFunction g ed) pos
  = if contains pos g then Some g else select ed pos.
Proof.
  rewrite !select_find. cbn [addFunction functions].
  rewrite rev_unit. reflexivity.
Qed.

(** ** A curve at its first control point *)

Lemma sub_self (x : float) :
  float_finite x = true -> F32.sub x x = S754_zero false.
Proof.
  destruct x as [[|]| | |s m e]; try discriminate; intros _; try reflexivity.
  unfold F32.sub, SFsub. rewrite Z.sub_diag. reflexivity.
Qed.

Lemma add_product_zero (a m : float) (s : bool) :
  F32.is_nan a = false -> float_finite m = true ->
  F32.eqb (F32.add a (F32.mul m (S754_zero s))) a = true.
Proof.
  intros Ha Hm.
  destruct m as [sm| | |sm mm em]; try discriminate Hm;
    destruct a as [sa|sa| |sa ma ea]; try discriminate Ha;
    try (destruct sa, sm, s; reflexivity);
    try (destruct sa; reflexivity);
    (apply (eqb_refl (S754_finite sa ma ea)); reflexivity).
Qed.

(** X23: at the [x] of its first control point, when that lies inside
    [valueRange] and is not behind the second point, a curve evaluates
    to a value [==] to the [y] of that point, provided the slope of the
    first segment is finite and [y] is a number. *)
Theorem PiecewiseLinear_eval_first_point (pl : PiecewiseLinear)
    (p1 p2 : vec2f) (rest : list vec2f) :
  controlPoints pl = p1 :: p2 :: rest ->
  float_finite (v2x p1) = true ->
  F32.ltb (v2x p1) (lower (pl_valueRange pl)) = false ->
  F32.ltb (upper (pl_valueRange pl)) (v2x p1) = false ->
  F32.ltb (v2x p2) (v2x p1) = false ->
  F32.is_nan (v2y p1) = false ->
  float_finite (F32.div (F32.sub (v2y p2) (v2y p1))
                        (F32.sub (v2x p2) (v2x p1))) = true ->
  F32.eqb (PiecewiseLinear_eval pl (v2x p1)) (v2y p1) = true.
Proof.
  intros Hcps Hx Hlo Hhi H21 Hy Hm.
  unfold PiecewiseLinear_eval. rewrite Hcps, Hlo, Hhi.
  cbn [length Nat.ltb Nat.leb orb eval_segments].
  rewrite ltb_irrefl, H21. cbn [orb].
  rewrite (sub_self _ Hx). apply add_product_zero; assumption.
Qed.

Lemma PiecewiseLinear_eval_first_point_witness :
  F32.eqb (PiecewiseLinear_eval example_pl F32.zero) F32.one = true.
Proof.
  apply (PiecewiseLinear_eval_first_point example_pl
           (mk_vec2f F32.zero F32.one)
           (mk_vec2f (F32.literal 3 10) (F32.literal 8 10))
           [mk_vec2f F32.one F32.one]); vm_compute; reflexivity.
Defined.
